(** * Verification of the Shibboleth remote-user middleware

    A shallow embedding of [shibboleth/middleware.py]
    ([ShibbolethRemoteUserMiddleware]) and the properties of its attribute
    parsing, group parsing, group reconciliation and request processing.

    Python dictionaries read by key ([request.META], [request.session], the
    parsed attribute dictionary) are finite maps; [settings.ATTRIBUTE_MAP],
    which the code walks with [.items()], is the list of its items in
    iteration order.  Library functions the module imports ([unquote],
    [auth.authenticate], [auth.login], the inherited [clean_username]) are
    section variables.  [re.split] is a parameter too in [Generic], the
    group parsing over any pattern; its matching is modelled for literal
    delimiters, and that model is the one the group reconciliation runs
    on. *)

From Stdlib Require Import Ascii String.
From stdpp Require Import gmap strings list fin_maps fin_sets.

Open Scope string_scope.

(** ** Settings *)

(** A value of [settings.ATTRIBUTE_MAP]: a 2-tuple [(required, name)] or a
    3-tuple [(required, name, attr_processor)]. *)
Inductive Attr : Type :=
| Attr2 (required : bool) (name : string)
| Attr3 (required : bool) (name : string) (attr_processor : string → string).

(** The unpacking at the head of the loop body of [parse_attributes]:
    a 2-tuple gets the identity as processor. *)
Definition attr_required (a : Attr) : bool :=
  match a with Attr2 r _ | Attr3 r _ _ => r end.

Definition attr_name (a : Attr) : string :=
  match a with Attr2 _ n | Attr3 _ n _ => n end.

Definition attr_processor_of (a : Attr) : string → string :=
  match a with Attr2 _ _ => λ x, x | Attr3 _ _ f => f end.

(** The names read from [shibboleth.settings], and [self.header]. *)
Record Settings : Type := {
  header : string;
  UNQUOTE_ATTRIBUTES : bool;
  ATTRIBUTE_MAP : list (string * Attr);
  GROUP_ATTRIBUTES : list string;
  GROUP_DELIMITERS : list string
}.

(** Python truthiness of a [str]: the empty string is false. *)
Definition truthy (s : string) : bool :=
  match s with EmptyString => false | String _ _ => true end.

(** ** Attribute parsing *)

Section parse_attributes.
Variable unquote : string → string.
Variable settings : Settings.

(** [if settings.UNQUOTE_ATTRIBUTES: value = unquote(value)] *)
Definition maybe_unquote (value : string) : string :=
  if UNQUOTE_ATTRIBUTES settings then unquote value else value.

(** One iteration of the loop of [parse_attributes], on the pair
    [(shib_attrs, error)]. *)
Definition parse_step (meta : gmap string string)
    (acc : gmap string string * bool) (item : string * Attr)
    : gmap string string * bool :=
  let '(shib_attrs, error) := acc in
  let '(header, attr) := item in
  let required := attr_required attr in
  let name := attr_name attr in
  let attr_processor := attr_processor_of attr in
  match meta !! header with
  | Some value =>
      if truthy value then
        (<[name := attr_processor (maybe_unquote value)]> shib_attrs, error)
      else if required then (shib_attrs, true)
      else (shib_attrs, error)
  | None =>
      if required then (shib_attrs, true) else (shib_attrs, error)
  end.

(** [parse_attributes(request)], as a function of [request.META]. *)
Definition parse_attributes (meta : gmap string string)
    : gmap string string * bool :=
  foldl (parse_step meta) (∅, false) (ATTRIBUTE_MAP settings).

End parse_attributes.

(** ** Group parsing *)

(** The pattern handed to [re.split] is ["|".join(settings.GROUP_DELIMITERS)].
    Python's [re] is modelled on the patterns built from literal characters
    and [|]: such a pattern is the ordered alternation of the literal strings
    between the bars.  A delimiter is in this class when none of its
    characters is special to [re]; the default [";"] is. *)
Definition regex_special (c : ascii) : bool :=
  bool_decide (c ∈ list_ascii_of_string ".^$*+?{}[]\|()").

Fixpoint literal_pattern (d : string) : bool :=
  match d with
  | "" => true
  | String c d' => negb (regex_special c) && literal_pattern d'
  end.

(** The alternatives of a pattern, in the order the matcher tries them. *)
Fixpoint alternatives (pattern : string) : list string :=
  match pattern with
  | "" => [""]
  | String c p =>
      if Ascii.eqb c "|"%char then "" :: alternatives p
      else match alternatives p with
           | a :: rest => String c a :: rest
           | [] => [String c ""]
           end
  end.

(** The match the backtracking matcher reports at one position: the first
    alternative that is a prefix of the remaining input; with [must_advance]
    set an empty match is refused and the next alternatives are tried. *)
Fixpoint first_match (must_advance : bool) (alts : list string) (s : string)
    : option nat :=
  match alts with
  | [] => None
  | a :: alts' =>
      if String.prefix a s && (negb must_advance || truthy a)
      then Some (String.length a)
      else first_match must_advance alts' s
  end.

(** Put a character in front of the segment being collected. *)
Definition push (c : ascii) (segments : list string) : list string :=
  match segments with
  | [] => [String c ""]
  | seg :: rest => String c seg :: rest
  end.

(** [re.split] from a position where a segment starts.  [skip] counts the
    characters of a match still to be consumed.  The search goes left to
    right; a match closes the current segment; after an empty match the
    search resumes at the same position with [must_advance] set, and moves
    one character on when nothing longer matches there; the segment after
    the last match is kept even when empty. *)
Fixpoint re_split_from (alts : list string) (skip : nat) (s : string)
    {struct s} : list string :=
  match skip with
  | S k =>
      match s with
      | String _ s' => re_split_from alts k s'
      | "" => [""]
      end
  | 0 =>
      let consume (n : nat) :=
        match n, s with
        | S k, String _ s' => re_split_from alts k s'
        | _, _ => [""]
        end in
      let advance :=
        match s with
        | String c s' => push c (re_split_from alts 0 s')
        | "" => [""]
        end in
      match first_match false alts s with
      | Some (S k) => "" :: consume (S k)
      | Some 0 =>
          "" :: match first_match true alts s with
                | Some n => "" :: consume n
                | None => advance
                end
      | None => advance
      end
  end.

Definition re_split (pattern value : string) : list string :=
  re_split_from (alternatives pattern) 0 value.

Section parse_group_attributes.
Variable unquote : string → string.
Variable settings : Settings.

(** One iteration of the loop of [parse_group_attributes]. *)
Definition parse_group_step (meta : gmap string string)
    (groups : list string) (attr : string) : list string :=
  let value := default "" (meta !! attr) in
  let value := maybe_unquote unquote settings value in
  let parsed_groups :=
    re_split (String.concat "|" (GROUP_DELIMITERS settings)) value in
  groups ++ List.filter truthy parsed_groups.

(** [parse_group_attributes(request)], as a function of [request.META]. *)
Definition parse_group_attributes (meta : gmap string string)
    : list string :=
  foldl (parse_group_step meta) [] (GROUP_ATTRIBUTES settings).

(** The group parsing algorithm in the words of the specification: for
    each configured group header fetch its value (default empty), decode
    it when configured, split it in one pass on the configured delimiters
    taken as alternatives, drop the empty tokens, and append the rest. *)
Definition spec_group_tokens (meta : gmap string string) (attr : string)
    : list string :=
  List.filter truthy
    (re_split_from (GROUP_DELIMITERS settings) 0
       (maybe_unquote unquote settings (default "" (meta !! attr)))).

Definition spec_parse_groups (meta : gmap string string) : list string :=
  concat (map (spec_group_tokens meta) (GROUP_ATTRIBUTES settings)).

End parse_group_attributes.

(** ** Users and groups *)

(** The attributes of a user object the middleware reads.  The anonymous
    user has [is_authenticated = false]. *)
Record User : Type := {
  pk : nat;
  username : string;
  is_authenticated : bool
}.

(** The group tables behind [Group.objects] and [user.groups]: the names of
    the existing groups ([Group.name] is unique, so a group is identified by
    its name) and the rows (user key, group name) of the membership
    relation. *)
Record GroupDB : Type := {
  group_table : gset string;
  membership : gset (nat * string)
}.

(** [user.groups.all()], by name. *)
Definition user_groups_all (user : User) (db : GroupDB) : list string :=
  snd <$> elements (filter (λ row, row.1 = pk user) (membership db)).

(** [group.user_set.remove(user)] *)
Definition user_set_remove (group : string) (user : User) (db : GroupDB)
    : GroupDB :=
  {| group_table := group_table db;
     membership := membership db ∖ {[ (pk user, group) ]} |}.

(** [Group.objects.get_or_create(name=g)] *)
Definition get_or_create (g : string) (db : GroupDB) : GroupDB :=
  if decide (g ∈ group_table db) then db
  else {| group_table := {[ g ]} ∪ group_table db;
          membership := membership db |}.

(** [group.user_set.add(user)] *)
Definition user_set_add (group : string) (user : User) (db : GroupDB)
    : GroupDB :=
  {| group_table := group_table db;
     membership := {[ (pk user, group) ]} ∪ membership db |}.

(** The two loops of [update_user_groups], for a parsed list [groups]. *)
Definition remove_stale_groups (groups : list string) (user : User)
    (db : GroupDB) : GroupDB :=
  foldl (λ db group,
           if decide (group ∈ groups) then db
           else user_set_remove group user db)
        db (user_groups_all user db).

Definition add_listed_groups (groups : list string) (user : User)
    (db : GroupDB) : GroupDB :=
  foldl (λ db g, user_set_add g user (get_or_create g db)) db groups.

(** The body of [update_user_groups] once the list is parsed: first the
    removal loop, then the adding loop. *)
Definition sync_groups (groups : list string) (user : User) (db : GroupDB)
    : GroupDB :=
  add_listed_groups groups user (remove_stale_groups groups user db).

Section update_user_groups.
Variable unquote : string → string.
Variable settings : Settings.

(** [update_user_groups(request, user)], on [request.META] and the group
    tables. *)
Definition update_user_groups (meta : gmap string string) (user : User)
    (db : GroupDB) : GroupDB :=
  let groups := parse_group_attributes unquote settings meta in
  sync_groups groups user db.

End update_user_groups.

(** The names of the groups a user belongs to, as a set. *)
Definition groups_of (user : User) (db : GroupDB) : gset string :=
  list_to_set (user_groups_all user db).

(** ** The request and the effects of processing it *)

(** A value of the session store: the parsed attributes the middleware
    writes, or a value of another writer. *)
Inductive SessionValue : Type :=
| Attributes (shib_meta : gmap string string)
| Opaque (data : string).

(** The request: [user] is [None] when the attribute is missing
    ([hasattr(request, "user")] is false). *)
Record Request : Type := {
  user : option User;
  META : gmap string string;
  session : gmap string SessionValue
}.

(** What [process_request] calls, logged in call order with the arguments
    the properties below refer to. *)
Inductive Call : Type :=
| call_parse_attributes
| call_authenticate (request : Request) (remote_user : string)
    (shib_meta : gmap string string)
| call_login (user : User)
| call_update_user_groups (user : User)
| call_make_profile (user : User) (shib_meta : gmap string string)
| call_setup_session.

Record World : Type := {
  request : Request;
  db : GroupDB;
  calls : list Call
}.

Inductive Exn : Type :=
| ImproperlyConfigured
| ShibbolethValidationError (shib_meta : gmap string string).

(** A computation reads and mutates the world and either returns or raises;
    what it mutated before raising stays mutated. *)
Definition M (A : Type) : Type := World → (Exn + A) * World.

Global Instance M_ret : MRet M := λ A x w, (inr x, w).

Global Instance M_bind : MBind M := λ A B f m w,
  match m w with
  | (inr x, w') => f x w'
  | (inl e, w') => (inl e, w')
  end.

Definition raise {A : Type} (e : Exn) : M A := λ w, (inl e, w).

Definition get_request : M Request := λ w, (inr (request w), w).

Definition set_request (r : Request) : M unit := λ w,
  (inr (), {| request := r; db := db w; calls := calls w |}).

Definition modify_db (f : GroupDB → GroupDB) : M unit := λ w,
  (inr (), {| request := request w; db := f (db w); calls := calls w |}).

Definition log (c : Call) : M unit := λ w,
  (inr (), {| request := request w; db := db w; calls := calls w ++ [c] |}).

(** [request.session[key] = value] *)
Definition session_setitem (key : string) (value : SessionValue) : M unit :=
  r ← get_request;
  set_request {| user := user r; META := META r;
                 session := <[key := value]> (session r) |}.

(** [request.user = user] *)
Definition set_user (u : User) : M unit :=
  r ← get_request;
  set_request {| user := Some u; META := META r; session := session r |}.

Section process_request.
Variable unquote : string → string.
Variable clean_username : string → Request → string.
Variable authenticate :
  Request → string → gmap string string → option User.
Variable login : Request → User → Request.
Variable settings : Settings.

(** [make_profile] and [setup_session] do nothing. *)
Definition make_profile (u : User) (shib_meta : gmap string string)
    : M unit :=
  log (call_make_profile u shib_meta).

Definition setup_session : M unit := log call_setup_session.

Definition do_login (u : User) : M unit :=
  log (call_login u);;
  r ← get_request;
  set_request (login r u).

Definition do_update_user_groups (u : User) : M unit :=
  log (call_update_user_groups u);;
  r ← get_request;
  modify_db (update_user_groups unquote settings (META r) u).

(** Lines 53-78: parse the attributes, store them in the session, raise
    when a required one is missing, else authenticate and log in. *)
Definition establish (remote_user : string) : M unit :=
  r ← get_request;
  log call_parse_attributes;;
  let '(shib_meta, error) := parse_attributes unquote settings (META r) in
  session_setitem "shib" (Attributes shib_meta);;
  if error then raise (ShibbolethValidationError shib_meta)
  else
    r ← get_request;
    log (call_authenticate r remote_user shib_meta);;
    match authenticate r remote_user shib_meta with
    | Some u =>
        set_user u;;
        do_login u;;
        (if bool_decide (GROUP_ATTRIBUTES settings ≠ [])
         then do_update_user_groups u else mret ());;
        make_profile u shib_meta;;
        setup_session
    | None => mret ()
    end.

(** Lines 48-51: the user is authenticated and is the user named by the
    header. *)
Definition already_logged_in (current : User) (remote_user : string)
    (r : Request) : bool :=
  is_authenticated current
  && String.eqb (username current) (clean_username remote_user r).

(** [process_request(self, request)] *)
Definition process_request : M unit :=
  r ← get_request;
  match user r with
  | None => raise ImproperlyConfigured
  | Some current =>
      match META r !! header settings with
      | None => mret ()
      | Some raw =>
          let remote_user := maybe_unquote unquote settings raw in
          if negb (truthy remote_user) then mret ()
          else if already_logged_in current remote_user r then mret ()
          else establish remote_user
      end
  end.

End process_request.

(** ** Auxiliary notions for the statements *)

(** A header counts as supplied when it is in the header map with a
    non-empty value: this is the test [if value:] of the loop. *)
Definition supplied (meta : gmap string string) (header : string) : bool :=
  match meta !! header with
  | Some value => truthy value
  | None => false
  end.

(** The value the loop leaves under [name]: the one written by the last
    configured item with that internal name whose header is supplied. *)
Fixpoint last_written (unquote : string → string) (settings : Settings)
    (meta : gmap string string) (name : string)
    (items : list (string * Attr)) : option string :=
  match items with
  | [] => None
  | (header, attr) :: items' =>
      match last_written unquote settings meta name items' with
      | Some x => Some x
      | None =>
          match meta !! header with
          | Some value =>
              if truthy value && bool_decide (attr_name attr = name)
              then Some (attr_processor_of attr
                           (maybe_unquote unquote settings value))
              else None
          | None => None
          end
      end
  end.

(** An item after position [i] writes under [name]. *)
Definition overwritten_after (meta : gmap string string)
    (items : list (string * Attr)) (i : nat) (name : string) : Prop :=
  ∃ j header attr,
    i < j ∧ items !! j = Some (header, attr) ∧
    attr_name attr = name ∧ supplied meta header = true.


(** The reading of attribute parsing that takes presence in the header map
    alone as the test: every configured header found in the map has its
    transformed value under its internal name, and the error flag is raised
    exactly when a required header is not in the map. *)
Definition entry_for_every_present_header (unquote : string → string)
    (settings : Settings) (meta : gmap string string) : Prop :=
  ∀ header attr value,
    (header, attr) ∈ ATTRIBUTE_MAP settings →
    meta !! header = Some value →
    (parse_attributes unquote settings meta).1 !! attr_name attr =
      Some (attr_processor_of attr (maybe_unquote unquote settings value)).

Definition error_iff_required_absent (unquote : string → string)
    (settings : Settings) (meta : gmap string string) : Prop :=
  (parse_attributes unquote settings meta).2 = true ↔
  ∃ header attr,
    (header, attr) ∈ ATTRIBUTE_MAP settings ∧
    attr_required attr = true ∧ meta !! header = None.

(** ** Sample configurations *)

(** The attribute map of the specification's scenarios. *)
Definition scenario_settings : Settings :=
  {| header := "REMOTE_USER";
     UNQUOTE_ATTRIBUTES := false;
     ATTRIBUTE_MAP := [("HTTP_MAIL", Attr2 true "mail");
                       ("HTTP_CN", Attr2 false "cn")];
     GROUP_ATTRIBUTES := ["HTTP_GROUPS"];
     GROUP_DELIMITERS := [";"] |}.

(** Group parsing with no delimiter configured. *)
Definition no_delimiter_settings : Settings :=
  {| header := "REMOTE_USER";
     UNQUOTE_ATTRIBUTES := false;
     ATTRIBUTE_MAP := [];
     GROUP_ATTRIBUTES := ["HTTP_GROUPS"];
     GROUP_DELIMITERS := [] |}.

(** [d] occurs in [g] as a substring. *)
Definition occurs_in (d g : string) : Prop :=
  ∃ before after, g = before +:+ d +:+ after.

(** No non-empty delimiter occurs in [g]. *)
Definition delimiter_free (alts : list string) (g : string) : Prop :=
  ∀ d, d ∈ alts → d ≠ "" → ¬ occurs_in d g.


(** The group tables a full sync leads to: the listed names are groups, the
    user's rows are exactly the listed names, the other rows stay. *)
Definition synced (groups : list string) (user : User) (db : GroupDB)
    : GroupDB :=
  {| group_table := group_table db ∪ list_to_set groups;
     membership :=
       filter (λ row, row.1 ≠ pk user) (membership db)
       ∪ set_map (λ g, (pk user, g)) (list_to_set groups : gset string) |}.

(** A user in groups A and C, as in the specification's scenario; another
    user shares group C. *)
Definition alice : User :=
  {| pk := 1; username := "alice"; is_authenticated := true |}.

Definition groups_A_C : GroupDB :=
  {| group_table := {[ "A"; "C" ]};
     membership := {[ (1, "A"); (1, "C"); (2, "C") ]} |}.

(** The request after [request.session["shib"] = shib_meta]. *)
Definition store_shib (shib_meta : gmap string string) (r : Request)
    : Request :=
  {| user := user r; META := META r;
     session := <["shib" := Attributes shib_meta]> (session r) |}.

(** ** Sample requests and collaborators *)

Definition anonymous : User :=
  {| pk := 0; username := ""; is_authenticated := false |}.

(** A backend whose [clean_username] keeps the name, that knows no user,
    and a login that only sets the user. *)
Definition keep_username (username : string) (_ : Request) : string :=
  username.

Definition no_match (_ : Request) (_ : string) (_ : gmap string string)
    : option User :=
  None.

Definition plain_login (r : Request) (u : User) : Request :=
  {| user := Some u; META := META r; session := session r |}.

Definition world_of (r : Request) : World :=
  {| request := r; db := groups_A_C; calls := [] |}.

(** A request the authentication middleware has not prepared: it has no
    [user] attribute; it carries no remote-user header either. *)
Definition request_without_user : Request :=
  {| user := None;
     META := {[ "HTTP_CN" := "Jane Doe" ]};
     session := ∅ |}.

(** An unprepared request that names a remote user. *)
Definition request_without_user_alice : Request :=
  {| user := None;
     META := {[ "REMOTE_USER" := "alice"; "HTTP_CN" := "Jane Doe" ]};
     session := ∅ |}.

(** No remote-user header at all. *)
Definition request_without_identity : Request :=
  {| user := Some anonymous;
     META := {[ "HTTP_CN" := "Jane Doe" ]};
     session := ∅ |}.

(** The remote user is the user already logged in; the session holds
    attributes of an earlier request. *)
Definition request_of_alice_again : Request :=
  {| user := Some alice;
     META := {[ "REMOTE_USER" := "alice"; "HTTP_MAIL" := "new@example.com" ]};
     session := {[ "shib" := Attributes {[ "mail" := "old@example.com" ]} ]} |}.

(** A remote user without the required mail attribute. *)
Definition request_missing_mail : Request :=
  {| user := Some anonymous;
     META := {[ "REMOTE_USER" := "alice"; "HTTP_CN" := "Jane Doe" ]};
     session := ∅ |}.

(** A remote user with all required attributes. *)
Definition request_with_mail : Request :=
  {| user := Some anonymous;
     META := {[ "REMOTE_USER" := "alice";
                "HTTP_MAIL" := "jane@example.com" ]};
     session := ∅ |}.

(** [process_request] with these collaborators and the scenario settings. *)
Definition sample_process : M unit :=
  process_request (λ s, s) keep_username no_match plain_login
    scenario_settings.

(** ** The outcomes of request processing *)

Section outcome.
Variable unquote : string → string.
Variable clean_username : string → Request → string.
Variable authenticate : Request → string → gmap string string → option User.
Variable login : Request → User → Request.
Variable settings : Settings.

(** The world after a successful authentication of [u]: [request.user] is
    set, [auth.login] has run on the request that carries the stored
    attributes, the groups are reconciled when group headers are
    configured, and the calls are logged in the order of lines 64-78. *)
Definition logged_in_world (w : World) (remote_user : string)
    (shib_meta : gmap string string) (u : User) : World :=
  let stored := store_shib shib_meta (request w) in
  let logged_in :=
    login {| user := Some u; META := META stored;
             session := session stored |} u in
  let sync := bool_decide (GROUP_ATTRIBUTES settings ≠ []) in
  {| request := logged_in;
     db := if sync
           then update_user_groups unquote settings (META logged_in) u (db w)
           else db w;
     calls := calls w ++
              [call_parse_attributes;
               call_authenticate stored remote_user shib_meta;
               call_login u] ++
              (if sync then [call_update_user_groups u] else []) ++
              [call_make_profile u shib_meta; call_setup_session] |}.

(** The ways [process_request] ends, one per path through its body. *)
Inductive outcome (w : World) : (Exn + unit) * World → Prop :=
| outcome_no_user :
    user (request w) = None →
    outcome w (inl ImproperlyConfigured, w)
| outcome_no_header current :
    user (request w) = Some current →
    META (request w) !! header settings = None →
    outcome w (inr (), w)
| outcome_empty_header current raw :
    user (request w) = Some current →
    META (request w) !! header settings = Some raw →
    maybe_unquote unquote settings raw = "" →
    outcome w (inr (), w)
| outcome_already_logged_in current raw :
    user (request w) = Some current →
    META (request w) !! header settings = Some raw →
    maybe_unquote unquote settings raw ≠ "" →
    already_logged_in clean_username current
      (maybe_unquote unquote settings raw) (request w) = true →
    outcome w (inr (), w)
| outcome_invalid current raw shib_meta :
    user (request w) = Some current →
    META (request w) !! header settings = Some raw →
    maybe_unquote unquote settings raw ≠ "" →
    already_logged_in clean_username current
      (maybe_unquote unquote settings raw) (request w) = false →
    parse_attributes unquote settings (META (request w))
      = (shib_meta, true) →
    outcome w
      (inl (ShibbolethValidationError shib_meta),
       {| request := store_shib shib_meta (request w);
          db := db w;
          calls := calls w ++ [call_parse_attributes] |})
| outcome_no_match current raw shib_meta :
    user (request w) = Some current →
    META (request w) !! header settings = Some raw →
    maybe_unquote unquote settings raw ≠ "" →
    already_logged_in clean_username current
      (maybe_unquote unquote settings raw) (request w) = false →
    parse_attributes unquote settings (META (request w))
      = (shib_meta, false) →
    authenticate (store_shib shib_meta (request w))
      (maybe_unquote unquote settings raw) shib_meta = None →
    outcome w
      (inr (),
       {| request := store_shib shib_meta (request w);
          db := db w;
          calls := calls w ++
                   [call_parse_attributes;
                    call_authenticate (store_shib shib_meta (request w))
                      (maybe_unquote unquote settings raw) shib_meta] |})
| outcome_match current raw shib_meta u :
    user (request w) = Some current →
    META (request w) !! header settings = Some raw →
    maybe_unquote unquote settings raw ≠ "" →
    already_logged_in clean_username current
      (maybe_unquote unquote settings raw) (request w) = false →
    parse_attributes unquote settings (META (request w))
      = (shib_meta, false) →
    authenticate (store_shib shib_meta (request w))
      (maybe_unquote unquote settings raw) shib_meta = Some u →
    outcome w
      (inr (),
       logged_in_world w (maybe_unquote unquote settings raw) shib_meta u).

End outcome.

(** A backend that knows alice. *)
Definition match_alice (_ : Request) (_ : string) (_ : gmap string string)
    : option User :=
  Some alice.

(** The scenario settings without group headers. *)
Definition no_group_settings : Settings :=
  {| header := "REMOTE_USER";
     UNQUOTE_ATTRIBUTES := false;
     ATTRIBUTE_MAP := ATTRIBUTE_MAP scenario_settings;
     GROUP_ATTRIBUTES := [];
     GROUP_DELIMITERS := [";"] |}.

(** A remote user with the required attribute and a group header. *)
Definition request_with_groups : Request :=
  {| user := Some anonymous;
     META := {[ "REMOTE_USER" := "alice";
                "HTTP_MAIL" := "jane@example.com";
                "HTTP_GROUPS" := "A;B" ]};
     session := ∅ |}.

(** The internal names of the items of an attribute map. *)
Definition internal_names (items : list (string * Attr)) : list string :=
  (λ item, attr_name item.2) <$> items.

(** The scenario settings with the two items of the attribute map in the
    other order. *)
Definition cn_mail_settings : Settings :=
  {| header := "REMOTE_USER";
     UNQUOTE_ATTRIBUTES := false;
     ATTRIBUTE_MAP := [("HTTP_CN", Attr2 false "cn");
                       ("HTTP_MAIL", Attr2 true "mail")];
     GROUP_ATTRIBUTES := ["HTTP_GROUPS"];
     GROUP_DELIMITERS := [";"] |}.

(** ** Notions for the statements on group parsing *)

(** The value [parse_group_attributes] splits for a group header. *)
Definition group_header_value (unquote : string → string)
    (settings : Settings) (meta : gmap string string) (attr : string)
    : string :=
  maybe_unquote unquote settings (default "" (meta !! attr)).

(** The characters of a string, each as a string. *)
Fixpoint chars (s : string) : list string :=
  match s with
  | "" => []
  | String c s' => String c "" :: chars s'
  end.

(** A delimiter made of bars only (the empty string included). *)
Fixpoint bars_only (d : string) : bool :=
  match d with
  | "" => true
  | String c d' => Ascii.eqb c "|" && bars_only d'
  end.

(** [s] without the characters of [D]. *)
Fixpoint remove_chars (D : list ascii) (s : string) : string :=
  match s with
  | "" => ""
  | String c s' =>
      if bool_decide (c ∈ D) then remove_chars D s'
      else String c (remove_chars D s')
  end.

(** Group parsing on bars, and on two single-character delimiters. *)
Definition bar_delimiter_settings : Settings :=
  {| header := "REMOTE_USER";
     UNQUOTE_ATTRIBUTES := false;
     ATTRIBUTE_MAP := [];
     GROUP_ATTRIBUTES := ["HTTP_GROUPS"];
     GROUP_DELIMITERS := ["|"] |}.

Definition two_delimiter_settings : Settings :=
  {| header := "REMOTE_USER";
     UNQUOTE_ATTRIBUTES := false;
     ATTRIBUTE_MAP := [];
     GROUP_ATTRIBUTES := ["HTTP_GROUPS"; "HTTP_ROLES"];
     GROUP_DELIMITERS := [";"; ","] |}.

(** ** Notions for the statements on group reconciliation *)

(** Every membership row names an existing group. *)
Definition referential_integrity (db : GroupDB) : Prop :=
  ∀ n g, (n, g) ∈ membership db → g ∈ group_table db.

Definition bob : User :=
  {| pk := 2; username := "bob"; is_authenticated := true |}.

(** ** Group parsing over any pattern *)

(** What [filter(bool, parsed_groups)] keeps of the list [re.split]
    returns: the non-empty strings.  The list may hold [None], for a group
    of the pattern that took no part in a match. *)
Definition surviving (parsed_groups : list (option string)) : list string :=
  omap (λ token,
          match token with
          | Some s => if truthy s then Some s else None
          | None => None
          end) parsed_groups.

(** The pattern [d|d'|...] that is the alternation of the given patterns. *)
Fixpoint alternation (d : string) (ds : list string) : string :=
  match ds with
  | [] => d
  | d' :: ds' => d +:+ String "|" (alternation d' ds')
  end.

(** [parse_group_attributes] with [re.split] as the library provides it:
    [split pattern value] stands for [re.split(pattern, value)], for any
    pattern.  An invalid pattern, on which the library raises, is not
    modelled. *)
Module Generic.
Section parse_group_attributes.
Variable split : string → string → list (option string).
Variable unquote : string → string.
Variable settings : Settings.

(** One iteration of the loop of [parse_group_attributes]. *)
Definition parse_group_step (meta : gmap string string)
    (groups : list string) (attr : string) : list string :=
  let value := default "" (meta !! attr) in
  let value := maybe_unquote unquote settings value in
  let parsed_groups :=
    split (String.concat "|" (GROUP_DELIMITERS settings)) value in
  groups ++ surviving parsed_groups.

(** [parse_group_attributes(request)], as a function of [request.META]. *)
Definition parse_group_attributes (meta : gmap string string)
    : list string :=
  foldl (parse_group_step meta) [] (GROUP_ATTRIBUTES settings).

(** The group parsing algorithm in the words of the specification: the
    value of a group header is split once, on the alternation of the
    configured delimiter patterns; with no delimiter there is nothing to
    split on and the value is one token.  Empty tokens are dropped and the
    tokens of the headers are put one after the other. *)
Definition split_on_alternatives (value : string) : list (option string) :=
  match GROUP_DELIMITERS settings with
  | [] => [Some value]
  | d :: ds => split (alternation d ds) value
  end.

Definition spec_group_tokens (meta : gmap string string) (attr : string)
    : list string :=
  surviving
    (split_on_alternatives
       (maybe_unquote unquote settings (default "" (meta !! attr)))).

Definition spec_parse_groups (meta : gmap string string) : list string :=
  concat (map (spec_group_tokens meta) (GROUP_ATTRIBUTES settings)).

End parse_group_attributes.
End Generic.

(** The library's split where its behaviour is modelled: on patterns of
    literal characters and [|], which have no group. *)
Definition modelled_split (pattern value : string) : list (option string) :=
  Some <$> re_split pattern value.
(** * Properties *)

Lemma truthy_false s : truthy s = false ↔ s = "".
Proof. destruct s; simpl; split; congruence. Qed.

Lemma truthy_true s : truthy s = true ↔ s ≠ "".
Proof. destruct s; simpl; split; congruence. Qed.

Lemma foldl_ext_all {A B : Type} (f g : A → B → A) (l : list B) (a : A) :
  (∀ a b, f a b = g a b) → foldl f a l = foldl g a l.
Proof.
  intros Hfg. revert a. induction l as [|b l IH]; intros a; [done|].
  simpl. by rewrite Hfg, IH.
Qed.

(** ** Attribute parsing *)

Section parse_attributes_facts.
Variable unquote : string → string.
Variable settings : Settings.
Variable meta : gmap string string.

Lemma parse_step_supplied shib_attrs error header attr :
  supplied meta header = true →
  ∃ value, meta !! header = Some value ∧ value ≠ "" ∧
    parse_step unquote settings meta (shib_attrs, error) (header, attr) =
      (<[attr_name attr :=
           attr_processor_of attr (maybe_unquote unquote settings value)]>
         shib_attrs, error).
Proof.
  unfold supplied, parse_step. intros Hs.
  destruct (meta !! header) as [value|]; [|done].
  exists value. rewrite Hs. split_and!; [done| by apply truthy_true |done].
Qed.

Lemma parse_step_not_supplied shib_attrs error header attr :
  supplied meta header = false →
  parse_step unquote settings meta (shib_attrs, error) (header, attr) =
    (shib_attrs, error || attr_required attr).
Proof.
  unfold supplied, parse_step. intros Hs.
  destruct (meta !! header) as [value|]; [rewrite Hs|];
    destruct (attr_required attr), error; done.
Qed.

Lemma foldl_parse_step_lookup items shib_attrs error name :
  (foldl (parse_step unquote settings meta) (shib_attrs, error) items).1 !! name =
    match last_written unquote settings meta name items with
    | Some x => Some x
    | None => shib_attrs !! name
    end.
Proof.
  revert shib_attrs error.
  induction items as [|[header attr] items IH]; intros shib_attrs error;
    [done|].
  cbn [foldl last_written]. destruct (supplied meta header) eqn:Hs.
  - destruct (parse_step_supplied shib_attrs error header attr Hs)
      as (value & Hv & Hne & ->).
    rewrite IH, Hv. apply truthy_true in Hne. rewrite Hne. simpl.
    destruct (last_written _ _ _ _ items); [done|].
    case_bool_decide as Hn.
    + by rewrite <- Hn, lookup_insert_eq.
    + by rewrite lookup_insert_ne.
  - rewrite (parse_step_not_supplied _ _ _ _ Hs), IH.
    destruct (last_written _ _ _ _ items); [done|].
    unfold supplied in Hs.
    destruct (meta !! header) as [value|]; [by rewrite Hs|done].
Qed.

Lemma foldl_parse_step_error items shib_attrs error :
  (foldl (parse_step unquote settings meta) (shib_attrs, error) items).2 =
    error || existsb (λ item, attr_required item.2
                                && negb (supplied meta item.1)) items.
Proof.
  revert shib_attrs error.
  induction items as [|[header attr] items IH]; intros shib_attrs error.
  - simpl. by rewrite orb_false_r.
  - cbn [foldl existsb fst snd]. destruct (supplied meta header) eqn:Hs.
    + destruct (parse_step_supplied shib_attrs error header attr Hs)
        as (value & _ & _ & ->).
      rewrite IH. by rewrite andb_false_r.
    + rewrite (parse_step_not_supplied _ _ _ _ Hs), IH.
      rewrite andb_true_r. by rewrite orb_assoc.
Qed.

Lemma last_written_is_Some items i header attr :
  items !! i = Some (header, attr) → supplied meta header = true →
  is_Some (last_written unquote settings meta (attr_name attr) items).
Proof.
  revert i. induction items as [|[h a] items IH]; intros i Hi Hs; [done|].
  simpl. destruct i as [|i]; simpl in Hi.
  - injection Hi as -> ->.
    destruct (last_written _ _ _ _ items); [by eexists|].
    unfold supplied in Hs. destruct (meta !! header); [|done].
    rewrite Hs, bool_decide_eq_true_2 by done. simpl. by eexists.
  - destruct (IH i Hi Hs) as [x ->]. by eexists.
Qed.

Lemma last_written_None items name :
  (∀ j header attr, items !! j = Some (header, attr) →
     attr_name attr = name → supplied meta header = false) →
  last_written unquote settings meta name items = None.
Proof.
  induction items as [|[h a] items IH]; intros Hno; [done|].
  simpl. rewrite IH by (intros j h' a' Hj Hn; exact (Hno (S j) h' a' Hj Hn)).
  specialize (Hno 0 h a eq_refl). unfold supplied in Hno.
  destruct (meta !! h) as [value|]; [|done].
  case_bool_decide as Hn; [|by rewrite andb_false_r].
  by rewrite (Hno Hn).
Qed.

Lemma last_written_not_overwritten items i header attr value :
  items !! i = Some (header, attr) → meta !! header = Some value →
  value ≠ "" →
  ¬ overwritten_after meta items i (attr_name attr) →
  last_written unquote settings meta (attr_name attr) items =
    Some (attr_processor_of attr (maybe_unquote unquote settings value)).
Proof.
  revert i. induction items as [|[h a] items IH]; intros i Hi Hv Hne Hno;
    [done|].
  simpl. destruct i as [|i]; simpl in Hi.
  - injection Hi as -> ->.
    rewrite last_written_None.
    + apply truthy_true in Hne.
      by rewrite Hv, Hne, bool_decide_eq_true_2.
    + intros j h' a' Hj Hn. destruct (supplied meta h') eqn:Hs; [|done].
      destruct Hno. exists (S j), h', a'. split_and!; [lia|done..].
  - rewrite (IH i Hi Hv Hne); [done|].
    intros (j & h' & a' & Hlt & Hj & Hn & Hs). apply Hno.
    exists (S j), h', a'. split_and!; [lia|done..].
Qed.

End parse_attributes_facts.

Lemma last_written_Some_inv unquote settings meta name items x :
  last_written unquote settings meta name items = Some x →
  ∃ header attr value,
    (header, attr) ∈ items ∧ meta !! header = Some value ∧ value ≠ "" ∧
    attr_name attr = name ∧
    x = attr_processor_of attr (maybe_unquote unquote settings value).
Proof.
  induction items as [|[h a] items IH]; [done|]. simpl.
  destruct (last_written _ _ _ _ items) as [y|].
  - intros [= ->]. destruct (IH eq_refl) as (h' & a' & v & Hin & ?).
    exists h', a', v. split; [by right|done].
  - destruct (meta !! h) as [value|] eqn:Hv; [|done].
    destruct (truthy value) eqn:Ht; [|done].
    case_bool_decide as Hn; [|done]. simpl. intros [= <-].
    exists h, a, value. split_and!; [by left|done| by apply truthy_true |done..].
Qed.

Lemma parse_attributes_error_iff unquote settings meta :
  (parse_attributes unquote settings meta).2 = true ↔
  ∃ header attr,
    (header, attr) ∈ ATTRIBUTE_MAP settings ∧
    attr_required attr = true ∧ supplied meta header = false.
Proof.
  unfold parse_attributes. rewrite foldl_parse_step_error. simpl.
  rewrite existsb_exists. split.
  - intros ([h a] & Hin & Hb). apply andb_true_iff in Hb as [Hr Hs].
    exists h, a. rewrite list_elem_of_In. simpl in *.
    by apply negb_true_iff in Hs.
  - intros (h & a & Hin & Hr & Hs). exists (h, a).
    rewrite <- list_elem_of_In. simpl. by rewrite Hr, Hs.
Qed.

(** C1 (as amended).  For every attribute map and every header map,
    [parse_attributes] walks all configured items.  Every configured header
    that is in the header map with a non-empty value has an entry under its
    internal name; the entry is its transformed (and, when configured,
    percent-decoded) value unless a later item with the same internal name
    is supplied too.  Every entry of the result comes from such a header.
    The error flag is set exactly when some required header is not in the
    map or is there with the empty string, wherever it stands in the
    configuration. *)
Theorem parse_attributes_entries_and_error
    (unquote : string → string) (settings : Settings)
    (meta : gmap string string) :
  (∀ i header attr value,
     ATTRIBUTE_MAP settings !! i = Some (header, attr) →
     meta !! header = Some value → value ≠ "" →
     is_Some ((parse_attributes unquote settings meta).1 !! attr_name attr) ∧
     (¬ overwritten_after meta (ATTRIBUTE_MAP settings) i (attr_name attr) →
      (parse_attributes unquote settings meta).1 !! attr_name attr =
        Some (attr_processor_of attr (maybe_unquote unquote settings value))))
  ∧ (∀ name x,
       (parse_attributes unquote settings meta).1 !! name = Some x →
       ∃ header attr value,
         (header, attr) ∈ ATTRIBUTE_MAP settings ∧
         meta !! header = Some value ∧ value ≠ "" ∧
         attr_name attr = name ∧
         x = attr_processor_of attr (maybe_unquote unquote settings value))
  ∧ ((parse_attributes unquote settings meta).2 = true ↔
     ∃ header attr,
       (header, attr) ∈ ATTRIBUTE_MAP settings ∧
       attr_required attr = true ∧
       (meta !! header = None ∨ meta !! header = Some "")).
Proof.
  split_and!.
  - intros i header attr value Hi Hv Hne.
    unfold parse_attributes. rewrite foldl_parse_step_lookup.
    assert (supplied meta header = true) as Hs.
    { unfold supplied. rewrite Hv. by apply truthy_true. }
    split.
    + destruct (last_written_is_Some unquote settings meta _ _ _ _ Hi Hs)
        as [x ->]. by eexists.
    + intros Hno.
      by rewrite (last_written_not_overwritten unquote settings meta
                    _ _ _ _ value Hi Hv Hne Hno).
  - intros name x. unfold parse_attributes.
    rewrite foldl_parse_step_lookup.
    destruct (last_written _ _ _ _ _) as [y|] eqn:Hl;
      [|by rewrite lookup_empty].
    intros [= ->]. by apply last_written_Some_inv in Hl.
  - rewrite parse_attributes_error_iff.
    split; intros (h & a & Hin & Hr & Hs); exists h, a;
      (split_and!; [done..|]); unfold supplied in *.
    + destruct (meta !! h) as [v|]; [right|by left].
      apply truthy_false in Hs. by subst.
    + by destruct Hs as [-> | ->].
Qed.

Lemma parse_attributes_entries_and_error_witness :
  let meta : gmap string string := {[ "HTTP_CN" := "Jane Doe" ]} in
  (parse_attributes (λ s, s) scenario_settings meta).1 !! "cn"
    = Some "Jane Doe"
  ∧ (parse_attributes (λ s, s) scenario_settings meta).2 = true.
Proof.
  intros meta.
  destruct (parse_attributes_entries_and_error (λ s, s) scenario_settings meta)
    as (Hentry & _ & Herror).
  split.
  - apply (Hentry 1 "HTTP_CN" (Attr2 false "cn") "Jane Doe");
      [reflexivity | reflexivity | discriminate |].
    intros (j & h & a & Hlt & Hj & _).
    destruct j as [|[|j]]; [lia | lia | discriminate Hj].
  - apply Herror. exists "HTTP_MAIL", (Attr2 true "mail").
    split_and!; [by left | reflexivity | left; reflexivity].
Defined.

(** C1, as stated, fails when a configured header is present with the empty
    string: nothing is stored for it, and the error flag is set although no
    required header is absent from the map. *)
Lemma parse_attributes_present_empty_counterexample :
  let meta : gmap string string := {[ "HTTP_MAIL" := "" ]} in
  parse_attributes (λ s, s) scenario_settings meta = (∅, true)
  ∧ ¬ entry_for_every_present_header (λ s, s) scenario_settings meta
  ∧ ¬ error_iff_required_absent (λ s, s) scenario_settings meta.
Proof.
  intros meta.
  assert (parse_attributes (λ s, s) scenario_settings meta = (∅, true))
    as Hrun by reflexivity.
  split_and!; [done| |].
  - intros Hall.
    specialize (Hall "HTTP_MAIL" (Attr2 true "mail") ""). rewrite Hrun in Hall.
    discriminate Hall; [by left | reflexivity].
  - intros [Hflag _]. rewrite Hrun in Hflag.
    destruct (Hflag eq_refl) as (h & a & Hin & Hr & Hnone).
    simpl in Hin. apply elem_of_cons in Hin as [[= -> ->]|Hin].
    + discriminate Hnone.
    + apply elem_of_cons in Hin as [[= -> ->]|Hin]; [discriminate Hr|].
      by apply elem_of_nil in Hin.
Qed.

(** C9.  A configured header present with the empty string is treated
    exactly like an absent one: the result of [parse_attributes] is the same
    as with the header removed from the map; when the header is required
    the error flag is set; and nothing is stored under its internal name
    unless another configured header with that name is supplied. *)
Theorem parse_attributes_empty_value_as_absent
    (unquote : string → string) (settings : Settings)
    (meta : gmap string string) (header : string) :
  parse_attributes unquote settings (<[header := ""]> meta) =
    parse_attributes unquote settings (delete header meta)
  ∧ (∀ attr, (header, attr) ∈ ATTRIBUTE_MAP settings →
       attr_required attr = true →
       (parse_attributes unquote settings (<[header := ""]> meta)).2 = true)
  ∧ (∀ attr, (header, attr) ∈ ATTRIBUTE_MAP settings →
       (∀ header' attr', (header', attr') ∈ ATTRIBUTE_MAP settings →
          header' ≠ header → attr_name attr' ≠ attr_name attr) →
       (parse_attributes unquote settings (<[header := ""]> meta)).1
         !! attr_name attr = None).
Proof.
  assert (∀ h, supplied (<[header := ""]> meta) h
               = supplied (delete header meta) h) as Hsup.
  { intros h. unfold supplied. destruct (decide (header = h)) as [->|Hne].
    - by rewrite lookup_insert_eq, lookup_delete_eq.
    - by rewrite lookup_insert_ne, lookup_delete_ne. }
  assert (supplied (<[header := ""]> meta) header = false) as Hself.
  { unfold supplied. by rewrite lookup_insert_eq. }
  split_and!.
  - unfold parse_attributes. apply foldl_ext_all. intros [attrs err] [h a].
    unfold parse_step. destruct (decide (header = h)) as [->|Hne].
    + by rewrite lookup_insert_eq, lookup_delete_eq.
    + by rewrite lookup_insert_ne, lookup_delete_ne.
  - intros attr Hin Hr. apply parse_attributes_error_iff. by exists header, attr.
  - intros attr Hin Hothers. unfold parse_attributes.
    rewrite foldl_parse_step_lookup, lookup_empty, last_written_None; [done|].
    intros j h a Hj Hn. destruct (decide (h = header)) as [->|Hne]; [done|].
    destruct (Hothers h a); [|done..].
    by apply list_elem_of_lookup_2 in Hj.
Qed.

Lemma parse_attributes_empty_value_as_absent_witness :
  let meta : gmap string string :=
    {[ "HTTP_MAIL" := "jane@example.com"; "HTTP_CN" := "Jane" ]} in
  (parse_attributes (λ s, s) scenario_settings (<["HTTP_MAIL" := ""]> meta)).2
    = true
  ∧ (parse_attributes (λ s, s) scenario_settings (<["HTTP_MAIL" := ""]> meta)).1
      !! "mail" = None.
Proof.
  intros meta.
  destruct (parse_attributes_empty_value_as_absent
              (λ s, s) scenario_settings meta "HTTP_MAIL")
    as (_ & Herror & Hentry).
  split.
  - apply (Herror (Attr2 true "mail")); [by left | reflexivity].
  - apply (Hentry (Attr2 true "mail")); [by left |].
    intros h a Hin Hne. simpl in Hin.
    apply elem_of_cons in Hin as [[= -> ->]|Hin]; [done|].
    apply elem_of_cons in Hin as [[= -> ->]|Hin]; [discriminate|].
    by apply elem_of_nil in Hin.
Defined.

(** ** Group parsing *)

Lemma literal_pattern_head c d :
  literal_pattern (String c d) = true →
  Ascii.eqb c "|" = false ∧ literal_pattern d = true.
Proof.
  simpl. intros [Hc Hd]%andb_true_iff. split; [|done].
  apply negb_true_iff in Hc. apply Ascii.eqb_neq. intros ->.
  by vm_compute in Hc.
Qed.

Lemma alternatives_literal d :
  literal_pattern d = true → alternatives d = [d].
Proof.
  induction d as [|c d IH]; [done|].
  intros [Hc Hd]%literal_pattern_head. simpl. by rewrite Hc, IH.
Qed.

Lemma alternatives_literal_bar d p :
  literal_pattern d = true →
  alternatives (d +:+ String "|" p) = d :: alternatives p.
Proof.
  induction d as [|c d IH]; [done|].
  intros [Hc Hd]%literal_pattern_head. simpl. by rewrite Hc, IH.
Qed.

Lemma alternatives_join delimiters :
  Forall (λ d, literal_pattern d = true) delimiters →
  delimiters ≠ [] →
  alternatives (String.concat "|" delimiters) = delimiters.
Proof.
  induction 1 as [|d ds Hd Hds IH]; [done|]. intros _.
  destruct ds as [|d' ds].
  - by apply alternatives_literal.
  - change (String.concat "|" (d :: d' :: ds))
      with (d +:+ String "|" (String.concat "|" (d' :: ds))).
    rewrite alternatives_literal_bar by done. by rewrite IH.
Qed.

Lemma foldl_app_concat {A B : Type} (f : B → list A) (l : list B)
    (acc : list A) :
  foldl (λ groups x, (groups ++ f x)%list) acc l
    = (acc ++ concat (map f l))%list.
Proof.
  revert acc. induction l as [|x l IH]; intros acc; simpl.
  - by rewrite app_nil_r.
  - by rewrite IH, app_assoc.
Qed.

Lemma parse_group_attributes_concat unquote settings meta :
  parse_group_attributes unquote settings meta =
    concat (map (λ attr,
                   List.filter truthy
                     (re_split (String.concat "|" (GROUP_DELIMITERS settings))
                        (maybe_unquote unquote settings
                           (default "" (meta !! attr)))))
              (GROUP_ATTRIBUTES settings)).
Proof.
  unfold parse_group_attributes, parse_group_step.
  by rewrite foldl_app_concat.
Qed.

Lemma parse_group_attributes_nonempty unquote settings meta :
  Forall (λ g, g ≠ "") (parse_group_attributes unquote settings meta).
Proof.
  rewrite parse_group_attributes_concat. apply Forall_concat, Forall_map.
  apply Forall_forall. intros attr _. simpl. apply Forall_forall.
  intros g Hg. apply list_elem_of_In, filter_In in Hg as [_ Hg].
  by apply truthy_true.
Qed.

(** *** What a split leaves in a token *)

Lemma prefix_spec a s : String.prefix a s = true ↔ ∃ t, s = a +:+ t.
Proof.
  revert s. induction a as [|c a IH]; intros s.
  - split; [intros _; by exists s| by destruct s].
  - destruct s as [|c' s]; simpl.
    + split; [done|]. by intros [t ?].
    + destruct (Ascii.ascii_dec c c') as [->|Hne].
      * split.
        -- intros [t ->]%IH. by exists t.
        -- intros [t [= ->]]. apply IH. by exists t.
      * split; [done|]. intros [t [= ? _]]. done.
Qed.

Lemma string_app_assoc (a b c : string) : (a +:+ b) +:+ c = a +:+ (b +:+ c).
Proof.
  induction a as [|x a IH]; [done|].
  change (String x ((a +:+ b) +:+ c) = String x (a +:+ (b +:+ c))).
  by rewrite IH.
Qed.

Lemma first_match_None must_advance alts s d :
  first_match must_advance alts s = None → d ∈ alts →
  (must_advance = true → d ≠ "") → String.prefix d s = false.
Proof.
  induction alts as [|a alts IH]; intros Hnone Hin Hd.
  - by apply elem_of_nil in Hin.
  - simpl in Hnone.
    destruct (String.prefix a s && (negb must_advance || truthy a)) eqn:Hm;
      [done|].
    apply elem_of_cons in Hin as [->|Hin]; [|by apply IH].
    apply andb_false_iff in Hm as [Hm|Hm]; [done|].
    apply orb_false_iff in Hm as [Hadv Ht].
    apply negb_false_iff in Hadv. apply truthy_false in Ht.
    by destruct (Hd Hadv).
Qed.

Lemma re_split_from_head alts s :
  ∃ seg rest, re_split_from alts 0 s = seg :: rest ∧
              String.prefix seg s = true.
Proof.
  induction s as [|c s (seg & rest & IH & Hpre)].
  - simpl. destruct (first_match false alts "") as [[|k]|];
      by eexists _, _.
  - assert (∃ seg' rest', push c (re_split_from alts 0 s) = seg' :: rest' ∧
              String.prefix seg' (String c s) = true) as Hadv.
    { rewrite IH. exists (String c seg), rest. split; [done|]. simpl.
      by destruct (Ascii.ascii_dec c c). }
    simpl. destruct (first_match false alts (String c s)) as [[|k]|];
      [by eexists _, _ | by eexists _, _ | done].
Qed.

Lemma delimiter_free_empty alts : delimiter_free alts "".
Proof.
  intros d _ Hne (before & after & Heq).
  destruct before; [destruct d|]; done.
Qed.

Lemma delimiter_free_push alts c s seg :
  (∀ d, d ∈ alts → d ≠ "" → String.prefix d (String c s) = false) →
  String.prefix seg s = true → delimiter_free alts seg →
  delimiter_free alts (String c seg).
Proof.
  intros Hnone [t ->]%prefix_spec Hfree d Hin Hne (before & after & Heq).
  destruct before as [|c' before].
  - specialize (Hnone d Hin Hne).
    assert (String.prefix d (String c (seg +:+ t)) = true) as Hp; [|congruence].
    apply prefix_spec. exists (after +:+ t).
    change (String c (seg +:+ t)) with (String c seg +:+ t).
    change (String c seg = d +:+ after) in Heq.
    by rewrite Heq, string_app_assoc.
  - change (String c seg = String c' (before +:+ d +:+ after)) in Heq.
    injection Heq as _ ->. apply (Hfree d Hin Hne). by exists before, after.
Qed.

Lemma re_split_from_delimiter_free alts skip s :
  Forall (delimiter_free alts) (re_split_from alts skip s).
Proof.
  pose proof (delimiter_free_empty alts) as Hempty.
  revert skip. induction s as [|c s IH]; intros skip.
  - destruct skip; simpl; [|by repeat constructor].
    destruct (first_match false alts "") as [[|k]|];
      [destruct (first_match true alts "") as [[|k]|]|..];
      by repeat constructor.
  - destruct skip as [|skip]; [|apply IH].
    assert ((∀ d, d ∈ alts → d ≠ "" → String.prefix d (String c s) = false) →
            Forall (delimiter_free alts) (push c (re_split_from alts 0 s)))
      as Hadv.
    { intros Hnone. destruct (re_split_from_head alts s)
        as (seg & rest & Heq & Hpre).
      pose proof (IH 0) as Hall. rewrite Heq in Hall |- *.
      apply Forall_cons in Hall as [Hseg Hrest]. simpl.
      constructor; [|done]. by eapply delimiter_free_push. }
    simpl. destruct (first_match false alts (String c s)) as [[|k]|] eqn:Hm.
    + constructor; [done|].
      destruct (first_match true alts (String c s)) as [[|k]|] eqn:Hm';
        [by repeat constructor | constructor; [done|apply IH] |].
      apply Hadv. intros d Hin Hne.
      by apply (first_match_None true alts _ d Hm' Hin).
    + constructor; [done|apply IH].
    + apply Hadv. intros d Hin Hne.
      apply (first_match_None false alts _ d Hm Hin). done.
Qed.

(** Literal delimiters, where the matching itself is modelled: each header
    value (default empty, decoded when configured) is split in one pass on
    the delimiters taken as ordered alternatives, the empty tokens are
    dropped and the tokens of all headers are concatenated in configuration
    order.  Every resulting group name is non-empty and contains no
    non-empty delimiter. *)
Lemma parse_group_attributes_single_pass
    (unquote : string → string) (settings : Settings)
    (meta : gmap string string) :
  GROUP_DELIMITERS settings ≠ [] →
  Forall (λ d, literal_pattern d = true) (GROUP_DELIMITERS settings) →
  parse_group_attributes unquote settings meta =
    spec_parse_groups unquote settings meta
  ∧ Forall (λ g, g ≠ "" ∧ delimiter_free (GROUP_DELIMITERS settings) g)
      (parse_group_attributes unquote settings meta).
Proof.
  intros Hne Hlit.
  assert (parse_group_attributes unquote settings meta =
            spec_parse_groups unquote settings meta) as Heq.
  { rewrite parse_group_attributes_concat.
    unfold spec_parse_groups, spec_group_tokens, re_split.
    by rewrite alternatives_join. }
  split; [done|]. apply Forall_and. split.
  - apply parse_group_attributes_nonempty.
  - rewrite Heq. unfold spec_parse_groups, spec_group_tokens.
    apply Forall_concat, Forall_map, Forall_forall. intros attr _. simpl.
    apply Forall_forall. intros g Hg.
    apply list_elem_of_In, filter_In in Hg as [Hg _].
    apply list_elem_of_In in Hg.
    pose proof (re_split_from_delimiter_free (GROUP_DELIMITERS settings) 0
      (maybe_unquote unquote settings (default "" (meta !! attr)))) as Hall.
    rewrite Forall_forall in Hall. by apply Hall.
Qed.

Lemma parse_group_attributes_single_pass_witness :
  let meta : gmap string string :=
    {[ "HTTP_GROUPS" := "admin;staff;;editors" ]} in
  GROUP_DELIMITERS scenario_settings = [";"]
  ∧ parse_group_attributes (λ s, s) scenario_settings meta
      = ["admin"; "staff"; "editors"].
Proof.
  intros meta. split; [reflexivity|].
  destruct (parse_group_attributes_single_pass (λ s, s) scenario_settings meta)
    as [-> _]; [discriminate | by repeat constructor | reflexivity].
Defined.

(** *** Any delimiter pattern *)

Lemma surviving_Some (l : list string) :
  surviving (Some <$> l) = List.filter truthy l.
Proof.
  induction l as [|s l IH]; [done|].
  cbn [fmap list_fmap List.filter]. unfold surviving in *. cbn [omap list_omap].
  destruct (truthy s); [|exact IH]. by f_equal.
Qed.

Lemma surviving_nonempty (parsed_groups : list (option string)) :
  Forall (λ g, g ≠ "") (surviving parsed_groups).
Proof.
  apply Forall_forall. intros g Hg. unfold surviving in Hg.
  apply list_elem_of_omap in Hg as (token & _ & Hkeep).
  destruct token as [s|]; [|done].
  destruct (truthy s) eqn:Hs; [|done].
  injection Hkeep as ->. by apply truthy_true.
Qed.

(** Joining a non-empty list of patterns with [|] writes their
    alternation. *)
Lemma join_alternation d ds : String.concat "|" (d :: ds) = alternation d ds.
Proof.
  revert d. induction ds as [|d' ds IH]; intros d; [done|].
  change (String.concat "|" (d :: d' :: ds))
    with (d +:+ String "|" (String.concat "|" (d' :: ds))).
  by rewrite IH.
Qed.

Lemma generic_parse_group_attributes_concat split unquote settings meta :
  Generic.parse_group_attributes split unquote settings meta =
    concat (map (λ attr,
                   surviving
                     (split (String.concat "|" (GROUP_DELIMITERS settings))
                        (maybe_unquote unquote settings
                           (default "" (meta !! attr)))))
              (GROUP_ATTRIBUTES settings)).
Proof.
  unfold Generic.parse_group_attributes, Generic.parse_group_step.
  by rewrite foldl_app_concat.
Qed.

(** With the modelled split the general function is the one on literal
    patterns. *)
Lemma generic_parse_group_attributes_modelled unquote settings meta :
  Generic.parse_group_attributes modelled_split unquote settings meta
  = parse_group_attributes unquote settings meta.
Proof.
  unfold Generic.parse_group_attributes, parse_group_attributes.
  apply foldl_ext_all. intros groups attr.
  unfold Generic.parse_group_step, parse_group_step, modelled_split.
  by rewrite surviving_Some.
Qed.

(** C8 (as amended).  For every list of group headers and every non-empty
    list of delimiter patterns, whatever the patterns are,
    [parse_group_attributes] is the group parsing algorithm of the
    specification: each header value (default empty, decoded when
    configured) is split once, on the alternation of all the delimiter
    patterns, the empty tokens are dropped and the tokens of all headers
    are concatenated in configuration order; no resulting group name is
    empty.  Where the matching is modelled, on literal delimiters, the
    single split takes the delimiters as ordered alternatives at each
    position and no group name contains a delimiter; in particular the
    delimiter [";"] on ["admin;staff;;editors"] gives the three groups. *)
Theorem parse_group_attributes_alternation
    (split : string → string → list (option string))
    (unquote : string → string) (settings : Settings)
    (meta : gmap string string) :
  GROUP_DELIMITERS settings ≠ [] →
  Generic.parse_group_attributes split unquote settings meta
    = Generic.spec_parse_groups split unquote settings meta
  ∧ Forall (λ g, g ≠ "")
      (Generic.parse_group_attributes split unquote settings meta)
  ∧ (Forall (λ d, literal_pattern d = true) (GROUP_DELIMITERS settings) →
     Generic.parse_group_attributes modelled_split unquote settings meta
       = spec_parse_groups unquote settings meta
     ∧ Forall (delimiter_free (GROUP_DELIMITERS settings))
         (Generic.parse_group_attributes modelled_split unquote settings
            meta))
  ∧ (∀ attr,
       GROUP_ATTRIBUTES settings = [attr] →
       GROUP_DELIMITERS settings = [";"] →
       maybe_unquote unquote settings (default "" (meta !! attr))
         = "admin;staff;;editors" →
       Generic.parse_group_attributes modelled_split unquote settings meta
         = ["admin"; "staff"; "editors"]).
Proof.
  intros Hne. split_and!.
  - rewrite generic_parse_group_attributes_concat.
    unfold Generic.spec_parse_groups, Generic.spec_group_tokens,
      Generic.split_on_alternatives.
    destruct (GROUP_DELIMITERS settings) as [|d ds]; [done|].
    by rewrite join_alternation.
  - rewrite generic_parse_group_attributes_concat.
    apply Forall_concat, Forall_map, Forall_forall. intros attr _.
    apply surviving_nonempty.
  - intros Hlit. rewrite generic_parse_group_attributes_modelled.
    destruct (parse_group_attributes_single_pass unquote settings meta
                Hne Hlit) as [Heq Hall].
    split; [done|]. eapply Forall_impl; [exact Hall|]. by intros g [_ ?].
  - intros attr Hattrs Hds Hvalue.
    rewrite generic_parse_group_attributes_modelled.
    unfold parse_group_attributes, parse_group_step.
    rewrite Hattrs, Hds. cbn [foldl]. rewrite Hvalue. reflexivity.
Qed.

Lemma parse_group_attributes_alternation_witness :
  let meta : gmap string string :=
    {[ "HTTP_GROUPS" := "admin;staff;;editors" ]} in
  GROUP_DELIMITERS scenario_settings ≠ []
  ∧ Generic.parse_group_attributes modelled_split (λ s, s)
      scenario_settings meta
    = ["admin"; "staff"; "editors"].
Proof.
  intros meta.
  assert (GROUP_DELIMITERS scenario_settings ≠ []) as Hne by discriminate.
  split; [exact Hne|].
  destruct (parse_group_attributes_alternation modelled_split (λ s, s)
              scenario_settings meta Hne) as (_ & _ & _ & Hexample).
  apply (Hexample "HTTP_GROUPS"); reflexivity.
Defined.

(** C8, as stated for every list of delimiters, fails for the empty list:
    the joined pattern is then the empty pattern, which matches between any
    two characters, so the value is cut into its characters, whereas a split
    on the alternation of no delimiter leaves the value whole. *)
Lemma parse_group_attributes_no_delimiter_counterexample :
  let meta : gmap string string := {[ "HTTP_GROUPS" := "ab" ]} in
  Generic.parse_group_attributes modelled_split (λ s, s)
    no_delimiter_settings meta = ["a"; "b"]
  ∧ Generic.spec_parse_groups modelled_split (λ s, s)
      no_delimiter_settings meta = ["ab"]
  ∧ Generic.parse_group_attributes modelled_split (λ s, s)
      no_delimiter_settings meta
    ≠ Generic.spec_parse_groups modelled_split (λ s, s)
        no_delimiter_settings meta.
Proof. intros meta. split_and!; [reflexivity | reflexivity | discriminate]. Qed.

(** ** Group reconciliation *)

Lemma GroupDB_eq (db1 db2 : GroupDB) :
  group_table db1 = group_table db2 → membership db1 = membership db2 →
  db1 = db2.
Proof. destruct db1, db2. simpl. by intros -> ->. Qed.

Lemma elem_of_user_groups_all user db g :
  g ∈ user_groups_all user db ↔ (pk user, g) ∈ membership db.
Proof.
  unfold user_groups_all. rewrite list_elem_of_fmap. split.
  - intros ([n g'] & -> & Hin).
    apply elem_of_elements, elem_of_filter in Hin as [Hpk Hin].
    simpl in *. by subst.
  - intros Hin. exists (pk user, g). split; [done|].
    by apply elem_of_elements, elem_of_filter.
Qed.

Lemma elem_of_groups_of user db g :
  g ∈ groups_of user db ↔ (pk user, g) ∈ membership db.
Proof.
  unfold groups_of. by rewrite elem_of_list_to_set, elem_of_user_groups_all.
Qed.

(** The removal loop over any snapshot [current] of group names. *)
Lemma removal_loop (groups : list string) user current db :
  let db' := foldl (λ db group,
                      if decide (group ∈ groups) then db
                      else user_set_remove group user db) db current in
  group_table db' = group_table db
  ∧ ∀ row, row ∈ membership db' ↔
           row ∈ membership db
           ∧ ¬ (row.1 = pk user ∧ row.2 ∈ current ∧ row.2 ∉ groups).
Proof.
  revert db. induction current as [|g current IH]; intros db; simpl.
  - split; [done|]. intros row. split; [|by intros [? _]].
    intros Hin. split; [done|]. intros (_ & Hnil & _).
    by apply elem_of_nil in Hnil.
  - destruct (IH (if decide (g ∈ groups) then db
                  else user_set_remove g user db)) as [Htab Hmem].
    split; [rewrite Htab; by destruct (decide (g ∈ groups))|].
    intros [n name]. rewrite Hmem. simpl.
    destruct (decide (g ∈ groups)) as [Hg|Hg]; simpl.
    + set_solver.
    + rewrite elem_of_difference, elem_of_singleton, elem_of_cons.
      split.
      * intros [[Hin Hne] Hno]. split; [done|].
        intros (-> & [->|Hc] & Hng); [by apply Hne|by apply Hno].
      * intros [Hin Hno]. split_and!; [done| |].
        -- intros [= -> ->]. apply Hno. by split_and!; [|left|].
        -- intros (-> & Hc & Hng). apply Hno. by split_and!; [|right|].
Qed.

Lemma remove_stale_groups_spec (groups : list string) user db :
  group_table (remove_stale_groups groups user db) = group_table db
  ∧ ∀ row, row ∈ membership (remove_stale_groups groups user db) ↔
           row ∈ membership db ∧ (row.1 = pk user → row.2 ∈ groups).
Proof.
  destruct (removal_loop groups user (user_groups_all user db) db)
    as [Htab Hmem].
  split; [done|]. intros [n name]. unfold remove_stale_groups.
  rewrite Hmem. simpl. split.
  - intros [Hin Hno]. split; [done|]. intros ->.
    destruct (decide (name ∈ groups)) as [|Hng]; [done|].
    destruct Hno. split_and!; [done| |done].
    by apply elem_of_user_groups_all.
  - intros [Hin Hkeep]. split; [done|]. intros (-> & _ & Hng).
    by apply Hng, Hkeep.
Qed.

Lemma add_listed_groups_spec (groups : list string) user db :
  group_table (add_listed_groups groups user db)
    = group_table db ∪ list_to_set groups
  ∧ ∀ row, row ∈ membership (add_listed_groups groups user db) ↔
           row ∈ membership db ∨ (row.1 = pk user ∧ row.2 ∈ groups).
Proof.
  unfold add_listed_groups. revert db.
  induction groups as [|g groups IH]; intros db; simpl.
  - split; [set_solver|]. intros row. split; [by left|].
    intros [?|[_ Hnil]]; [done|]. by apply elem_of_nil in Hnil.
  - destruct (IH (user_set_add g user (get_or_create g db))) as [Htab Hmem].
    split.
    + rewrite Htab. unfold get_or_create.
      destruct (decide (g ∈ group_table db)); simpl; set_solver.
    + intros [n name]. rewrite Hmem. unfold get_or_create.
      destruct (decide (g ∈ group_table db)); simpl;
        rewrite elem_of_union, elem_of_singleton, elem_of_cons;
        naive_solver.
Qed.

Lemma sync_groups_synced groups user db :
  sync_groups groups user db = synced groups user db.
Proof.
  unfold sync_groups.
  destruct (add_listed_groups_spec groups user
              (remove_stale_groups groups user db)) as [Htab Hmem].
  destruct (remove_stale_groups_spec groups user db) as [Htab' Hmem'].
  apply GroupDB_eq.
  - by rewrite Htab, Htab'.
  - apply set_eq. intros [n name]. rewrite Hmem, Hmem'. simpl.
    rewrite elem_of_union, elem_of_filter, elem_of_map. simpl.
    setoid_rewrite elem_of_list_to_set.
    destruct (decide (n = pk user)) as [->|Hne]; naive_solver.
Qed.

Lemma groups_of_synced (groups : list string) user db :
  groups_of user (synced groups user db) = list_to_set groups.
Proof.
  apply set_eq. intros g. rewrite elem_of_groups_of. simpl.
  rewrite elem_of_union, elem_of_filter, elem_of_map. simpl.
  setoid_rewrite elem_of_list_to_set. naive_solver.
Qed.

Lemma synced_name_set (groups1 groups2 : list string) user db :
  (list_to_set groups1 : gset string) = list_to_set groups2 →
  synced groups1 user db = synced groups2 user db.
Proof. unfold synced. by intros ->. Qed.

Lemma synced_idempotent (groups : list string) user db :
  synced groups user (synced groups user db) = synced groups user db.
Proof.
  apply GroupDB_eq; simpl; [set_solver|].
  apply set_eq. intros [n name].
  rewrite !elem_of_union, !elem_of_filter, elem_of_union, elem_of_filter,
    !elem_of_map. simpl. naive_solver.
Qed.

(** C3.  For every user and every group-name list, reconciliation leaves the
    user in exactly the groups named in the list: the groups of the user
    after [update_user_groups] are the set of names of the parsed list (and
    so for the two loops on any list); every listed name is a group
    afterwards, the groups that existed stay; rows of other users are not
    touched. *)
Theorem update_user_groups_full_sync
    (unquote : string → string) (settings : Settings)
    (meta : gmap string string) (groups : list string)
    (user : User) (db : GroupDB) :
  groups_of user (sync_groups groups user db) = list_to_set groups
  ∧ group_table (sync_groups groups user db)
      = group_table db ∪ list_to_set groups
  ∧ filter (λ row, row.1 ≠ pk user) (membership (sync_groups groups user db))
      = filter (λ row, row.1 ≠ pk user) (membership db)
  ∧ groups_of user (update_user_groups unquote settings meta user db)
      = list_to_set (parse_group_attributes unquote settings meta).
Proof.
  unfold update_user_groups. rewrite !sync_groups_synced.
  split_and!; [apply groups_of_synced | done | | apply groups_of_synced].
  apply set_eq. intros [n name]. simpl.
  rewrite !elem_of_filter, elem_of_union, elem_of_filter, elem_of_map.
  simpl. naive_solver.
Qed.

(** The scenario of the specification: a user in A and C, new list A, B. *)
Example update_user_groups_scenario :
  let after :=
    update_user_groups (λ s, s) scenario_settings
      {[ "HTTP_GROUPS" := "A;B" ]} alice groups_A_C in
  groups_of alice after = {[ "A"; "B" ]}
  ∧ membership after = {[ (1, "A"); (1, "B"); (2, "C") ]}
  ∧ group_table after = {[ "A"; "B"; "C" ]}.
Proof.
  intros after. split_and!; vm_compute; reflexivity.
Qed.

(** C7.  Group reconciliation is idempotent: for every user and every list,
    running the reconciliation a second time with the same list leaves the
    group tables as the first run left them, for [update_user_groups] on
    the same headers as for the two loops on any list. *)
Theorem update_user_groups_idempotent
    (unquote : string → string) (settings : Settings)
    (meta : gmap string string) (groups : list string)
    (user : User) (db : GroupDB) :
  sync_groups groups user (sync_groups groups user db)
    = sync_groups groups user db
  ∧ update_user_groups unquote settings meta user
      (update_user_groups unquote settings meta user db)
    = update_user_groups unquote settings meta user db
  ∧ groups_of user (sync_groups groups user (sync_groups groups user db))
    = groups_of user (sync_groups groups user db).
Proof.
  unfold update_user_groups. rewrite !sync_groups_synced.
  by rewrite !synced_idempotent.
Qed.

(** C10.  The outcome of the reconciliation depends only on the set of names
    in the list: two lists with the same names, whatever their order and
    repetitions, lead to the same group tables, hence to the same groups of
    the user. *)
Theorem update_user_groups_name_set
    (groups1 groups2 : list string) (user : User) (db : GroupDB) :
  (list_to_set groups1 : gset string) = list_to_set groups2 →
  sync_groups groups1 user db = sync_groups groups2 user db
  ∧ groups_of user (sync_groups groups1 user db)
    = groups_of user (sync_groups groups2 user db).
Proof.
  intros Hset. rewrite !sync_groups_synced.
  by rewrite (synced_name_set groups1 groups2 user db Hset).
Qed.

Lemma update_user_groups_name_set_witness :
  (list_to_set ["staff"; "admin"; "staff"] : gset string)
    = list_to_set ["admin"; "staff"]
  ∧ sync_groups ["staff"; "admin"; "staff"] alice groups_A_C
    = sync_groups ["admin"; "staff"] alice groups_A_C.
Proof.
  assert ((list_to_set ["staff"; "admin"; "staff"] : gset string)
          = list_to_set ["admin"; "staff"]) as Hset by set_solver.
  split; [exact Hset|].
  exact (proj1 (update_user_groups_name_set _ _ alice groups_A_C Hset)).
Defined.

(** The same for [update_user_groups] on two header maps. *)
Corollary update_user_groups_same_names unquote settings meta1 meta2 user db :
  (list_to_set (parse_group_attributes unquote settings meta1) : gset string)
    = list_to_set (parse_group_attributes unquote settings meta2) →
  update_user_groups unquote settings meta1 user db
    = update_user_groups unquote settings meta2 user db.
Proof.
  intros Hset. unfold update_user_groups.
  rewrite !sync_groups_synced. by apply synced_name_set.
Qed.

(** ** Request processing *)

Section process_request_facts.
Variable unquote : string → string.
Variable clean_username : string → Request → string.
Variable authenticate : Request → string → gmap string string → option User.
Variable login : Request → User → Request.
Variable settings : Settings.

Local Abbreviation process :=
  (process_request unquote clean_username authenticate login settings).

Lemma already_logged_in_true current remote_user r :
  already_logged_in clean_username current remote_user r = true
  ↔ is_authenticated current = true
    ∧ username current = clean_username remote_user r.
Proof.
  unfold already_logged_in. by rewrite andb_true_iff, String.eqb_eq.
Qed.

(** Without the [user] attribute the configuration error is raised and
    nothing is touched. *)
Lemma process_request_improperly_configured w :
  user (request w) = None →
  process w = (inl ImproperlyConfigured, w).
Proof.
  intros Hu. unfold process_request, mbind, M_bind, get_request.
  by rewrite Hu.
Qed.

(** The fast path: nothing is done. *)
Lemma process_request_already_logged_in w current raw :
  user (request w) = Some current →
  META (request w) !! header settings = Some raw →
  already_logged_in clean_username current
    (maybe_unquote unquote settings raw) (request w) = true →
  process w = (inr (), w).
Proof.
  intros Hu Hraw Hfast.
  unfold process_request, mbind, M_bind, get_request. rewrite Hu, Hraw.
  destruct (truthy _); [|done]. simpl. by rewrite Hfast.
Qed.

(** From the header check on, when the header carries a user name and the
    fast path is not taken, [process_request] is [establish]. *)
Lemma process_request_establish w current raw :
  user (request w) = Some current →
  META (request w) !! header settings = Some raw →
  maybe_unquote unquote settings raw ≠ "" →
  already_logged_in clean_username current
    (maybe_unquote unquote settings raw) (request w) = false →
  process w
  = establish unquote authenticate login settings
      (maybe_unquote unquote settings raw) w.
Proof.
  intros Hu Hraw Hne Hslow.
  unfold process_request, mbind, M_bind, get_request.
  rewrite Hu, Hraw. apply truthy_true in Hne. rewrite Hne. simpl.
  by rewrite Hslow.
Qed.

(** [establish] when a required attribute is missing. *)
Lemma establish_error remote_user w shib_meta :
  parse_attributes unquote settings (META (request w)) = (shib_meta, true) →
  establish unquote authenticate login settings remote_user w
  = (inl (ShibbolethValidationError shib_meta),
     {| request := store_shib shib_meta (request w);
        db := db w;
        calls := calls w ++ [call_parse_attributes] |}).
Proof.
  intros Hparse. unfold establish, mbind, M_bind, get_request, log. simpl.
  by rewrite Hparse.
Qed.

(** [establish] when the backend finds no user. *)
Lemma establish_no_match remote_user w shib_meta :
  parse_attributes unquote settings (META (request w)) = (shib_meta, false) →
  authenticate (store_shib shib_meta (request w)) remote_user shib_meta
    = None →
  establish unquote authenticate login settings remote_user w
  = (inr (),
     {| request := store_shib shib_meta (request w);
        db := db w;
        calls := calls w ++
                 [call_parse_attributes;
                  call_authenticate (store_shib shib_meta (request w))
                    remote_user shib_meta] |}).
Proof.
  intros Hparse Hnone.
  unfold establish, mbind, M_bind, get_request, log. simpl.
  rewrite Hparse. simpl. unfold store_shib in Hnone. rewrite Hnone.
  unfold mret, M_ret. simpl. by rewrite <- app_assoc.
Qed.

(** [establish] when the backend returns a user: the user is logged in, the
    groups are reconciled when group headers are configured, and the two
    hooks are called once each, last. *)
Lemma establish_match remote_user w shib_meta u :
  parse_attributes unquote settings (META (request w)) = (shib_meta, false) →
  authenticate (store_shib shib_meta (request w)) remote_user shib_meta
    = Some u →
  let logged_in :=
    login {| user := Some u; META := META (request w);
             session := session (store_shib shib_meta (request w)) |} u in
  let sync := bool_decide (GROUP_ATTRIBUTES settings ≠ []) in
  establish unquote authenticate login settings remote_user w
  = (inr (),
     {| request := logged_in;
        db := if sync
              then update_user_groups unquote settings (META logged_in) u
                     (db w)
              else db w;
        calls := calls w ++
                 [call_parse_attributes;
                  call_authenticate (store_shib shib_meta (request w))
                    remote_user shib_meta;
                  call_login u] ++
                 (if sync then [call_update_user_groups u] else []) ++
                 [call_make_profile u shib_meta; call_setup_session] |}).
Proof.
  intros Hparse Hsome logged_in sync.
  unfold establish, mbind, M_bind, get_request, log. simpl.
  rewrite Hparse. simpl. unfold store_shib in Hsome. rewrite Hsome.
  unfold mbind, M_bind, set_user, do_login, do_update_user_groups,
    make_profile, setup_session, set_request, get_request, modify_db, log,
    mbind, M_bind. simpl.
  fold sync. destruct sync; simpl; unfold mret, M_ret; simpl;
    by rewrite <- !app_assoc.
Qed.

(** C4 (as amended).  When the request has its [user] attribute and the
    remote-user header is absent, or present but empty once decoded,
    [process_request] returns normally and changes nothing: the user, the
    session, the group tables and the call log are as before. *)
Theorem process_request_no_identity (w : World) (current : User) :
  user (request w) = Some current →
  (META (request w) !! header settings = None
   ∨ ∃ raw, META (request w) !! header settings = Some raw
            ∧ maybe_unquote unquote settings raw = "") →
  process w = (inr (), w).
Proof.
  intros Hu Hheader.
  unfold process_request, mbind, M_bind, get_request. rewrite Hu.
  destruct Hheader as [->|(raw & -> & Hempty)]; [done|].
  by rewrite Hempty.
Qed.

(** C5.  When the current user is authenticated and its name is the decoded
    and cleaned value of the remote-user header, [process_request] returns
    normally and changes nothing: the session (its ["shib"] entry included)
    is untouched and nothing is called, attribute parsing included. *)
Theorem process_request_fast_path (w : World) (current : User)
    (raw : string) :
  user (request w) = Some current →
  is_authenticated current = true →
  META (request w) !! header settings = Some raw →
  username current
    = clean_username (maybe_unquote unquote settings raw) (request w) →
  process w = (inr (), w)
  ∧ session (request (process w).2) !! "shib" = session (request w) !! "shib"
  ∧ call_parse_attributes ∉ drop (length (calls w)) (calls (process w).2).
Proof.
  intros Hu Hauth Hraw Hname.
  assert (process w = (inr (), w)) as Hrun.
  { apply (process_request_already_logged_in w current raw Hu Hraw).
    by apply already_logged_in_true. }
  rewrite Hrun. simpl. split_and!; [done..|].
  rewrite drop_all. apply not_elem_of_nil.
Qed.

(** C2 (as amended).  When the request has its [user] attribute, the
    remote-user header is non-empty once decoded and the fast path is not
    taken, the parsed attributes are stored under ["shib"] before anything
    else happens.  If a required attribute is missing, [process_request]
    raises the validation error carrying the partial attribute map, and the
    world it leaves is the initial one with that map in the session.
    Otherwise no error is raised and the first call after parsing, the
    backend's, sees the session with the map already stored. *)
Theorem process_request_stores_shib (w : World) (current : User)
    (raw : string) :
  user (request w) = Some current →
  META (request w) !! header settings = Some raw →
  maybe_unquote unquote settings raw ≠ "" →
  ¬ (is_authenticated current = true
     ∧ username current
       = clean_username (maybe_unquote unquote settings raw) (request w)) →
  let shib_meta := (parse_attributes unquote settings (META (request w))).1 in
  let error := (parse_attributes unquote settings (META (request w))).2 in
  let stored := store_shib shib_meta (request w) in
  session stored !! "shib" = Some (Attributes shib_meta)
  ∧ (error = true →
     process w
     = (inl (ShibbolethValidationError shib_meta),
        {| request := stored; db := db w;
           calls := calls w ++ [call_parse_attributes] |}))
  ∧ (error = false →
     (process w).1 = inr ()
     ∧ ∃ later,
         calls (process w).2
         = (calls w ++
            [call_parse_attributes;
             call_authenticate stored (maybe_unquote unquote settings raw)
               shib_meta] ++ later)%list).
Proof.
  intros Hu Hraw Hne Hslow shib_meta error stored.
  assert (already_logged_in clean_username current
            (maybe_unquote unquote settings raw) (request w) = false)
    as Hslow'.
  { apply not_true_is_false. by rewrite already_logged_in_true. }
  rewrite (process_request_establish w current raw Hu Hraw Hne Hslow').
  assert (parse_attributes unquote settings (META (request w))
          = (shib_meta, error)) as Hparse.
  { unfold shib_meta, error. by destruct (parse_attributes _ _ _). }
  split_and!.
  - simpl. apply lookup_insert_eq.
  - intros Herr. rewrite Herr in Hparse. by apply establish_error.
  - intros Herr. rewrite Herr in Hparse.
    destruct (authenticate stored (maybe_unquote unquote settings raw)
                shib_meta) as [u|] eqn:Hauth.
    + rewrite (establish_match _ w shib_meta u Hparse Hauth). simpl.
      split; [done|]. eexists. simpl. reflexivity.
    + rewrite (establish_no_match _ w shib_meta Hparse Hauth). simpl.
      split; [done|]. exists []. done.
Qed.

(** C6 (as amended).  When the request has its [user] attribute, the
    remote-user header is non-empty once decoded, no required attribute is
    missing and the backend finds no user, [process_request] returns
    normally; the user and the group tables are unchanged and no login is
    performed.  The session is unchanged on the fast path; otherwise it
    differs from the initial one by the ["shib"] entry only, which holds
    the parsed attributes. *)
Theorem process_request_no_match (w : World) (current : User)
    (raw : string) (shib_meta : gmap string string) :
  user (request w) = Some current →
  META (request w) !! header settings = Some raw →
  maybe_unquote unquote settings raw ≠ "" →
  parse_attributes unquote settings (META (request w)) = (shib_meta, false) →
  authenticate (store_shib shib_meta (request w))
    (maybe_unquote unquote settings raw) shib_meta = None →
  (process w).1 = inr ()
  ∧ user (request (process w).2) = user (request w)
  ∧ db (process w).2 = db w
  ∧ (∀ u, call_login u ∉ drop (length (calls w)) (calls (process w).2))
  ∧ session (request (process w).2)
    = if already_logged_in clean_username current
           (maybe_unquote unquote settings raw) (request w)
      then session (request w)
      else <["shib" := Attributes shib_meta]> (session (request w)).
Proof.
  intros Hu Hraw Hne Hparse Hnone.
  destruct (already_logged_in _ _ _ _) eqn:Hfast.
  - rewrite (process_request_already_logged_in w current raw Hu Hraw Hfast).
    simpl. split_and!; [done..| |done].
    intros u. rewrite drop_all. apply not_elem_of_nil.
  - rewrite (process_request_establish w current raw Hu Hraw Hne Hfast).
    rewrite (establish_no_match _ w shib_meta Hparse Hnone). simpl.
    split_and!; [done..| |done].
    intros u. rewrite drop_app_length.
    intros [[=]|[[=]|Hnil%elem_of_nil]%elem_of_cons]%elem_of_cons. done.
Qed.

End process_request_facts.

Lemma process_request_no_identity_witness :
  user request_without_identity = Some anonymous
  ∧ META request_without_identity !! "REMOTE_USER" = None
  ∧ sample_process (world_of request_without_identity)
    = (inr (), world_of request_without_identity).
Proof.
  split_and!; [reflexivity | reflexivity |].
  apply (process_request_no_identity (λ s, s) keep_username no_match
           plain_login scenario_settings
           (world_of request_without_identity) anonymous);
    [reflexivity | left; reflexivity].
Defined.

(** C4, as stated for every request, fails for a request without the [user]
    attribute: the prerequisite check raises the configuration error before
    the header is looked at (nothing is changed then either). *)
Lemma process_request_no_user_counterexample :
  META request_without_user !! header scenario_settings = None
  ∧ sample_process (world_of request_without_user)
    = (inl ImproperlyConfigured, world_of request_without_user)
  ∧ (sample_process (world_of request_without_user)).1 ≠ inr ().
Proof. split_and!; [reflexivity | reflexivity | discriminate]. Qed.

Lemma process_request_fast_path_witness :
  sample_process (world_of request_of_alice_again)
    = (inr (), world_of request_of_alice_again)
  ∧ session (request (sample_process (world_of request_of_alice_again)).2)
      !! "shib"
    = Some (Attributes {[ "mail" := "old@example.com" ]}).
Proof.
  destruct (process_request_fast_path (λ s, s) keep_username no_match
              plain_login scenario_settings
              (world_of request_of_alice_again) alice "alice")
    as (Hrun & Hshib & _); [reflexivity..|].
  unfold sample_process. split; [exact Hrun|]. rewrite Hshib. reflexivity.
Defined.

Lemma process_request_stores_shib_witness :
  sample_process (world_of request_missing_mail)
  = (inl (ShibbolethValidationError {[ "cn" := "Jane Doe" ]}),
     {| request := store_shib {[ "cn" := "Jane Doe" ]} request_missing_mail;
        db := groups_A_C;
        calls := [call_parse_attributes] |}).
Proof.
  destruct (process_request_stores_shib (λ s, s) keep_username no_match
              plain_login scenario_settings
              (world_of request_missing_mail) anonymous "alice")
    as (_ & Herror & _);
    [reflexivity | reflexivity | discriminate
    | intros [Hauth _]; discriminate Hauth |].
  exact (Herror eq_refl).
Defined.

(** C2, as stated for every request, fails for a request without the [user]
    attribute: its remote-user header is non-empty and it takes no fast
    path, yet the configuration error is raised first and nothing is stored
    under ["shib"]. *)
Lemma process_request_no_user_shib_counterexample :
  META request_without_user_alice !! header scenario_settings = Some "alice"
  ∧ sample_process (world_of request_without_user_alice)
    = (inl ImproperlyConfigured, world_of request_without_user_alice)
  ∧ session (request (sample_process (world_of request_without_user_alice)).2)
      !! "shib" = None.
Proof. split_and!; reflexivity. Qed.

Lemma process_request_no_match_witness :
  (sample_process (world_of request_with_mail)).1 = inr ()
  ∧ session (request (sample_process (world_of request_with_mail)).2)
    = {[ "shib" := Attributes {[ "mail" := "jane@example.com" ]} ]}.
Proof.
  destruct (process_request_no_match (λ s, s) keep_username no_match
              plain_login scenario_settings
              (world_of request_with_mail) anonymous "alice"
              {[ "mail" := "jane@example.com" ]})
    as (Hret & _ & _ & _ & Hsession);
    [reflexivity | reflexivity | discriminate | reflexivity | reflexivity |].
  unfold sample_process. split; [exact Hret|]. rewrite Hsession. reflexivity.
Defined.

(** C6, as stated, fails: with a non-empty remote-user header, successful
    attribute parsing and a backend that finds no user, the session does
    change, the parsed attributes having been stored under ["shib"]. *)
Lemma process_request_no_match_session_counterexample :
  parse_attributes (λ s, s) scenario_settings (META request_with_mail)
    = ({[ "mail" := "jane@example.com" ]}, false)
  ∧ (sample_process (world_of request_with_mail)).1 = inr ()
  ∧ session request_with_mail !! "shib" = None
  ∧ session (request (sample_process (world_of request_with_mail)).2)
      !! "shib"
    = Some (Attributes {[ "mail" := "jane@example.com" ]})
  ∧ session (request (sample_process (world_of request_with_mail)).2)
    ≠ session request_with_mail.
Proof.
  split_and!; [reflexivity..|].
  intros Heq.
  assert (session (request (sample_process (world_of request_with_mail)).2)
            !! "shib" = session request_with_mail !! "shib") as Hshib
    by (by rewrite Heq).
  discriminate Hshib.
Qed.

(** * Further properties *)

(** ** The paths of request processing *)

Section process_request_paths.
Variable unquote : string → string.
Variable clean_username : string → Request → string.
Variable authenticate : Request → string → gmap string string → option User.
Variable login : Request → User → Request.
Variable settings : Settings.

Local Abbreviation run :=
  (process_request unquote clean_username authenticate login settings).

Local Abbreviation ends :=
  (outcome unquote clean_username authenticate login settings).

(** The two ways the header check ends the run. *)
Lemma process_request_no_header_run w current :
  user (request w) = Some current →
  META (request w) !! header settings = None →
  run w = (inr (), w).
Proof.
  intros Hu Hraw. unfold process_request, mbind, M_bind, get_request.
  by rewrite Hu, Hraw.
Qed.

Lemma process_request_empty_header_run w current raw :
  user (request w) = Some current →
  META (request w) !! header settings = Some raw →
  maybe_unquote unquote settings raw = "" →
  run w = (inr (), w).
Proof.
  intros Hu Hraw Hempty. unfold process_request, mbind, M_bind, get_request.
  by rewrite Hu, Hraw, Hempty.
Qed.

(** Every run of [process_request] ends in one of the listed ways. *)
Lemma process_request_outcome w : ends w (run w).
Proof.
  destruct (user (request w)) as [current|] eqn:Hu.
  2: { rewrite (process_request_improperly_configured unquote clean_username
                  authenticate login settings w Hu).
       by apply outcome_no_user. }
  destruct (META (request w) !! header settings) as [raw|] eqn:Hraw.
  2: { rewrite (process_request_no_header_run w current Hu Hraw).
       by eapply outcome_no_header. }
  destruct (decide (maybe_unquote unquote settings raw = "")) as [He|Hne].
  { rewrite (process_request_empty_header_run w current raw Hu Hraw He).
    by eapply outcome_empty_header. }
  destruct (already_logged_in clean_username current
              (maybe_unquote unquote settings raw) (request w)) eqn:Hfast.
  { rewrite (process_request_already_logged_in unquote clean_username
               authenticate login settings w current raw Hu Hraw Hfast).
    by eapply outcome_already_logged_in. }
  rewrite (process_request_establish unquote clean_username authenticate
             login settings w current raw Hu Hraw Hne Hfast).
  destruct (parse_attributes unquote settings (META (request w)))
    as [shib_meta [|]] eqn:Hparse.
  { rewrite (establish_error unquote authenticate login settings _ w
               shib_meta Hparse).
    by eapply outcome_invalid. }
  destruct (authenticate (store_shib shib_meta (request w))
              (maybe_unquote unquote settings raw) shib_meta)
    as [u|] eqn:Hauth.
  - rewrite (establish_match unquote authenticate login settings _ w
               shib_meta u Hparse Hauth).
    by eapply outcome_match.
  - rewrite (establish_no_match unquote authenticate login settings _ w
               shib_meta Hparse Hauth).
    by eapply outcome_no_match.
Qed.

(** X1.  [process_request] raises the configuration error exactly when the
    request has no [user] attribute, and then it has changed nothing. *)
Theorem process_request_improperly_configured_iff (w : World) :
  ((run w).1 = inl ImproperlyConfigured ↔ user (request w) = None)
  ∧ (user (request w) = None → (run w).2 = w).
Proof.
  pose proof (process_request_outcome w) as Hout.
  split.
  - split.
    + intros Hres. destruct Hout; simpl in Hres; congruence.
    + intros Hu. destruct Hout; simpl; congruence.
  - intros Hu. destruct Hout; simpl; congruence.
Qed.

(** X2.  When [process_request] raises the validation error, the map it
    carries is the one [parse_attributes] returned together with the error
    flag; that map is in the session under ["shib"], the user and the group
    tables are unchanged, and nothing was called after the parsing: the
    backend was not consulted and nobody was logged in. *)
Theorem process_request_validation_error (w : World)
    (shib_meta : gmap string string) :
  (run w).1 = inl (ShibbolethValidationError shib_meta) →
  parse_attributes unquote settings (META (request w)) = (shib_meta, true)
  ∧ request (run w).2 = store_shib shib_meta (request w)
  ∧ db (run w).2 = db w
  ∧ calls (run w).2 = (calls w ++ [call_parse_attributes])%list.
Proof.
  intros Hres. pose proof (process_request_outcome w) as Hout.
  destruct Hout; simpl in Hres; try discriminate Hres.
  injection Hres as <-. by simpl.
Qed.

(** X3.  When the backend returns a user: [request.user] is set and
    [auth.login] runs on the request whose session already holds the parsed
    attributes; the groups are reconciled, on the headers of the logged-in
    request, exactly when group headers are configured; then [make_profile]
    and [setup_session] are called, once each and in that order, and the
    run returns normally. *)
Theorem process_request_match (w : World) (current : User) (raw : string)
    (shib_meta : gmap string string) (u : User) :
  user (request w) = Some current →
  META (request w) !! header settings = Some raw →
  maybe_unquote unquote settings raw ≠ "" →
  already_logged_in clean_username current
    (maybe_unquote unquote settings raw) (request w) = false →
  parse_attributes unquote settings (META (request w)) = (shib_meta, false) →
  authenticate (store_shib shib_meta (request w))
    (maybe_unquote unquote settings raw) shib_meta = Some u →
  let logged_in :=
    login {| user := Some u; META := META (request w);
             session := <["shib" := Attributes shib_meta]>
                          (session (request w)) |} u in
  (run w).1 = inr ()
  ∧ request (run w).2 = logged_in
  ∧ db (run w).2
    = (if bool_decide (GROUP_ATTRIBUTES settings ≠ [])
       then update_user_groups unquote settings (META logged_in) u (db w)
       else db w)
  ∧ calls (run w).2
    = (calls w ++
       [call_parse_attributes;
        call_authenticate (store_shib shib_meta (request w))
          (maybe_unquote unquote settings raw) shib_meta;
        call_login u] ++
       (if bool_decide (GROUP_ATTRIBUTES settings ≠ [])
        then [call_update_user_groups u] else []) ++
       [call_make_profile u shib_meta; call_setup_session])%list.
Proof.
  intros Hu Hraw Hne Hfast Hparse Hauth logged_in.
  rewrite (process_request_establish unquote clean_username authenticate
             login settings w current raw Hu Hraw Hne Hfast).
  by rewrite (establish_match unquote authenticate login settings _ w
                shib_meta u Hparse Hauth).
Qed.

(** X4.  Unless somebody is logged in, a run changes nothing but the
    ["shib"] entry of the session: the user, the headers, the other session
    entries and the group tables are as before. *)
Theorem process_request_frame (w : World) :
  (∃ u, call_login u ∈ drop (length (calls w)) (calls (run w).2))
  ∨ (user (request (run w).2) = user (request w)
     ∧ META (request (run w).2) = META (request w)
     ∧ db (run w).2 = db w
     ∧ ∀ key, key ≠ "shib" →
         session (request (run w).2) !! key = session (request w) !! key).
Proof.
  pose proof (process_request_outcome w) as Hout.
  destruct Hout; simpl;
    try (right; split_and!; [done..|]; intros key Hkey;
         by rewrite ?lookup_insert_ne).
  left. exists u. rewrite drop_app_length. set_solver.
Qed.

(** X5.  With no group header configured a run never touches the group
    tables, whoever is logged in. *)
Theorem process_request_without_group_sync (w : World) :
  GROUP_ATTRIBUTES settings = [] →
  db (run w).2 = db w.
Proof.
  intros Hnone. pose proof (process_request_outcome w) as Hout.
  destruct Hout; simpl; try done.
  by rewrite Hnone.
Qed.

(** X6.  A run never deletes a group: every group that exists before
    exists afterwards. *)
Theorem process_request_keeps_groups (w : World) :
  group_table (db w) ⊆ group_table (db (run w).2).
Proof.
  pose proof (process_request_outcome w) as Hout.
  destruct Hout; simpl; try done.
  destruct (bool_decide _); [|done].
  unfold update_user_groups. rewrite sync_groups_synced. simpl. set_solver.
Qed.

End process_request_paths.

Lemma process_request_improperly_configured_iff_witness :
  user request_without_user_alice = None
  ∧ process_request (λ s, s) keep_username match_alice plain_login
      scenario_settings (world_of request_without_user_alice)
    = (inl ImproperlyConfigured, world_of request_without_user_alice).
Proof.
  split; [reflexivity|].
  destruct (process_request_improperly_configured_iff (λ s, s) keep_username
              match_alice plain_login scenario_settings
              (world_of request_without_user_alice)) as [[_ Hraise] Hsame].
  specialize (Hraise eq_refl). specialize (Hsame eq_refl).
  destruct (process_request _ _ _ _ _ _) as [res w']. simpl in *.
  by rewrite Hraise, Hsame.
Defined.

Lemma process_request_validation_error_witness :
  let run := process_request (λ s, s) keep_username match_alice plain_login
               scenario_settings (world_of request_missing_mail) in
  run.1 = inl (ShibbolethValidationError {[ "cn" := "Jane Doe" ]})
  ∧ session (request run.2) !! "shib"
    = Some (Attributes {[ "cn" := "Jane Doe" ]})
  ∧ calls run.2 = [call_parse_attributes].
Proof.
  intros run.
  assert (run.1 = inl (ShibbolethValidationError {[ "cn" := "Jane Doe" ]}))
    as Hres by reflexivity.
  destruct (process_request_validation_error (λ s, s) keep_username
              match_alice plain_login scenario_settings
              (world_of request_missing_mail) {[ "cn" := "Jane Doe" ]} Hres)
    as (_ & Hreq & _ & Hcalls).
  fold run in Hreq, Hcalls. rewrite Hreq, Hcalls.
  split_and!; [exact Hres | reflexivity | reflexivity].
Defined.

Lemma process_request_match_witness :
  let run := process_request (λ s, s) keep_username match_alice plain_login
               scenario_settings (world_of request_with_groups) in
  run.1 = inr ()
  ∧ user (request run.2) = Some alice
  ∧ session (request run.2) !! "shib"
    = Some (Attributes {[ "mail" := "jane@example.com" ]})
  ∧ groups_of alice (db run.2) = {[ "A"; "B" ]}
  ∧ drop 2 (calls run.2)
    = [call_login alice; call_update_user_groups alice;
       call_make_profile alice {[ "mail" := "jane@example.com" ]};
       call_setup_session].
Proof.
  intros run.
  destruct (process_request_match (λ s, s) keep_username match_alice
              plain_login scenario_settings
              (world_of request_with_groups) anonymous "alice"
              {[ "mail" := "jane@example.com" ]} alice)
    as (Hret & Hreq & Hdb & Hcalls);
    [reflexivity | reflexivity | discriminate | reflexivity | reflexivity
    | reflexivity |].
  fold run in Hret, Hreq, Hdb, Hcalls. rewrite Hreq, Hdb, Hcalls.
  split_and!; [exact Hret | reflexivity | reflexivity
              | vm_compute; reflexivity | reflexivity].
Defined.

Lemma process_request_without_group_sync_witness :
  GROUP_ATTRIBUTES no_group_settings = []
  ∧ (process_request (λ s, s) keep_username match_alice plain_login
       no_group_settings (world_of request_with_groups)).1 = inr ()
  ∧ db (process_request (λ s, s) keep_username match_alice plain_login
          no_group_settings (world_of request_with_groups)).2
    = groups_A_C.
Proof.
  split_and!; [reflexivity | reflexivity |].
  exact (process_request_without_group_sync (λ s, s) keep_username
           match_alice plain_login no_group_settings
           (world_of request_with_groups) eq_refl).
Defined.

(** ** More on attribute parsing *)

Lemma parse_attributes_lookup unquote settings meta name :
  (parse_attributes unquote settings meta).1 !! name
  = last_written unquote settings meta name (ATTRIBUTE_MAP settings).
Proof.
  unfold parse_attributes. rewrite foldl_parse_step_lookup, lookup_empty.
  by destruct (last_written _ _ _ _ _).
Qed.

(** X7.  When [parse_attributes] reports no error, every required item of
    the attribute map has its header in the header map with a non-empty
    value, and the result has an entry under its internal name. *)
Theorem parse_attributes_success_has_required
    (unquote : string → string) (settings : Settings)
    (meta : gmap string string) (header : string) (attr : Attr) :
  (parse_attributes unquote settings meta).2 = false →
  (header, attr) ∈ ATTRIBUTE_MAP settings →
  attr_required attr = true →
  (∃ value, meta !! header = Some value ∧ value ≠ "")
  ∧ is_Some ((parse_attributes unquote settings meta).1 !! attr_name attr).
Proof.
  intros Hok Hin Hreq.
  assert (supplied meta header = true) as Hs.
  { destruct (supplied meta header) eqn:Hs; [done|].
    assert ((parse_attributes unquote settings meta).2 = true) as Herr
      by (apply parse_attributes_error_iff; by exists header, attr).
    congruence. }
  split.
  - unfold supplied in Hs. destruct (meta !! header) as [value|]; [|done].
    exists value. split; [done|]. by apply truthy_true.
  - rewrite parse_attributes_lookup.
    apply list_elem_of_lookup in Hin as [i Hi].
    by eapply last_written_is_Some.
Qed.

Lemma parse_attributes_success_has_required_witness :
  let meta : gmap string string :=
    {[ "HTTP_MAIL" := "jane@example.com"; "HTTP_X" := "other" ]} in
  (parse_attributes (λ s, s) scenario_settings meta).2 = false
  ∧ is_Some ((parse_attributes (λ s, s) scenario_settings meta).1 !! "mail").
Proof.
  intros meta. split; [reflexivity|].
  apply (parse_attributes_success_has_required (λ s, s) scenario_settings
           meta "HTTP_MAIL" (Attr2 true "mail"));
    [reflexivity | by left | reflexivity].
Defined.

Lemma foldl_ext_in {A B : Type} (f g : A → B → A) (l : list B) (a : A) :
  (∀ a b, b ∈ l → f a b = g a b) → foldl f a l = foldl g a l.
Proof.
  revert a. induction l as [|b l IH]; intros a Hfg; [done|]. simpl.
  rewrite Hfg by left. apply IH. intros a' b' Hin. apply Hfg. by right.
Qed.

(** X8.  Headers that are not configured in the attribute map have no
    influence: two header maps that agree on the configured headers give the
    same attributes and the same error flag. *)
Theorem parse_attributes_configured_headers_only
    (unquote : string → string) (settings : Settings)
    (meta1 meta2 : gmap string string) :
  (∀ header attr, (header, attr) ∈ ATTRIBUTE_MAP settings →
     meta1 !! header = meta2 !! header) →
  parse_attributes unquote settings meta1
  = parse_attributes unquote settings meta2.
Proof.
  intros Hagree. unfold parse_attributes. apply foldl_ext_in.
  intros [attrs err] [h a] Hin. unfold parse_step.
  by rewrite (Hagree h a Hin).
Qed.

Lemma parse_attributes_configured_headers_only_witness :
  parse_attributes (λ s, s) scenario_settings
    {[ "HTTP_CN" := "Jane"; "HTTP_COOKIE" := "k=v" ]}
  = parse_attributes (λ s, s) scenario_settings
      {[ "HTTP_CN" := "Jane"; "REMOTE_USER" := "alice" ]}.
Proof.
  apply parse_attributes_configured_headers_only.
  intros h a Hin. simpl in Hin.
  apply elem_of_cons in Hin as [[= -> ->]|Hin]; [reflexivity|].
  apply elem_of_cons in Hin as [[= -> ->]|Hin]; [reflexivity|].
  by apply elem_of_nil in Hin.
Defined.

Lemma parse_attributes_lookup_distinct unquote settings meta name x :
  NoDup (internal_names (ATTRIBUTE_MAP settings)) →
  (parse_attributes unquote settings meta).1 !! name = Some x ↔
  ∃ header attr value,
    (header, attr) ∈ ATTRIBUTE_MAP settings ∧
    meta !! header = Some value ∧ value ≠ "" ∧
    attr_name attr = name ∧
    x = attr_processor_of attr (maybe_unquote unquote settings value).
Proof.
  intros Hnodup. rewrite parse_attributes_lookup. split.
  - apply last_written_Some_inv.
  - intros (h & a & v & Hin & Hv & Hne & <- & ->).
    apply list_elem_of_lookup in Hin as [i Hi].
    apply (last_written_not_overwritten unquote settings meta _ i h a v);
      [done..|].
    intros (j & h' & a' & Hlt & Hj & Hname & _).
    assert (i = j); [|lia].
    apply (NoDup_lookup _ i j (attr_name a) Hnodup);
      unfold internal_names; rewrite list_lookup_fmap.
    + by rewrite Hi.
    + rewrite Hj. simpl. by rewrite Hname.
Qed.

(** X9.  When the internal names of the attribute map are pairwise
    distinct, the order of its items is irrelevant: two settings with the
    same items in any order, and the same unquote flag, give the same
    attributes and the same error flag. *)
Theorem parse_attributes_order_irrelevant
    (unquote : string → string) (settings1 settings2 : Settings)
    (meta : gmap string string) :
  ATTRIBUTE_MAP settings1 ≡ₚ ATTRIBUTE_MAP settings2 →
  UNQUOTE_ATTRIBUTES settings1 = UNQUOTE_ATTRIBUTES settings2 →
  NoDup (internal_names (ATTRIBUTE_MAP settings1)) →
  parse_attributes unquote settings1 meta
  = parse_attributes unquote settings2 meta.
Proof.
  intros Hperm Hflag Hnodup1.
  assert (NoDup (internal_names (ATTRIBUTE_MAP settings2))) as Hnodup2.
  { unfold internal_names in *. by rewrite <- Hperm. }
  assert (∀ v, maybe_unquote unquote settings1 v
               = maybe_unquote unquote settings2 v) as Hdec.
  { intros v. unfold maybe_unquote. by rewrite Hflag. }
  assert ((parse_attributes unquote settings1 meta).1
          = (parse_attributes unquote settings2 meta).1) as Hmap.
  { apply map_eq. intros name. apply option_eq. intros x.
    rewrite !parse_attributes_lookup_distinct by done.
    split; intros (h & a & v & Hin & Hv & Hne & Hn & ->);
      exists h, a, v; split_and!; try done.
    - by rewrite <- Hperm.
    - by rewrite <- Hdec.
    - by rewrite Hperm.
    - by rewrite Hdec. }
  assert ((parse_attributes unquote settings1 meta).2
          = (parse_attributes unquote settings2 meta).2) as Herr.
  { apply eq_true_iff_eq. rewrite !parse_attributes_error_iff.
    split; intros (h & a & Hin & ?); exists h, a; split; try done.
    - by rewrite <- Hperm.
    - by rewrite Hperm. }
  destruct (parse_attributes unquote settings1 meta),
    (parse_attributes unquote settings2 meta). simpl in *. congruence.
Qed.

Lemma parse_attributes_order_irrelevant_witness :
  let meta : gmap string string :=
    {[ "HTTP_MAIL" := "jane@example.com"; "HTTP_CN" := "Jane" ]} in
  parse_attributes (λ s, s) scenario_settings meta
  = parse_attributes (λ s, s) cn_mail_settings meta.
Proof.
  intros meta. apply parse_attributes_order_irrelevant.
  - apply Permutation_swap.
  - reflexivity.
  - apply NoDup_cons. split; [|apply NoDup_singleton].
    intros Hin. apply list_elem_of_singleton in Hin. discriminate Hin.
Defined.

(** ** More on group parsing *)

Lemma parse_group_attributes_values unquote settings meta :
  parse_group_attributes unquote settings meta =
    concat (map (λ attr,
                   List.filter truthy
                     (re_split (String.concat "|" (GROUP_DELIMITERS settings))
                        (group_header_value unquote settings meta attr)))
              (GROUP_ATTRIBUTES settings)).
Proof. apply parse_group_attributes_concat. Qed.

Lemma concat_map_ext_in {A B : Type} (f g : A → list B) (l : list A) :
  (∀ x, x ∈ l → f x = g x) → concat (map f l) = concat (map g l).
Proof.
  induction l as [|x l IH]; intros Hfg; [done|]. simpl.
  rewrite (Hfg x) by left. rewrite IH; [done|].
  intros y Hy. apply Hfg. by right.
Qed.

Lemma concat_map_nil {A B : Type} (l : list A) :
  concat (map (λ _, @nil B) l) = [].
Proof. induction l as [|x l IH]; [done|]. exact IH. Qed.

Lemma re_split_empty_value pattern :
  List.filter truthy (re_split pattern "") = [].
Proof.
  unfold re_split. simpl.
  destruct (first_match false (alternatives pattern) "") as [[|k]|];
    [destruct (first_match true (alternatives pattern) "") as [[|k]|]|..];
    reflexivity.
Qed.

(** X10.  A group header that is absent, or whose value is empty once
    decoded, contributes no group, whatever the delimiters: when this is so
    for all configured group headers the list of groups is empty. *)
Theorem parse_group_attributes_empty_values
    (unquote : string → string) (settings : Settings)
    (meta : gmap string string) :
  (∀ attr, attr ∈ GROUP_ATTRIBUTES settings →
     group_header_value unquote settings meta attr = "") →
  parse_group_attributes unquote settings meta = [].
Proof.
  intros Hempty. rewrite parse_group_attributes_values.
  rewrite (concat_map_ext_in _ (λ _, [])).
  - apply concat_map_nil.
  - intros attr Hin. rewrite (Hempty attr Hin). apply re_split_empty_value.
Qed.

Lemma parse_group_attributes_empty_values_witness :
  let meta : gmap string string :=
    {[ "REMOTE_USER" := "alice"; "HTTP_ROLES" := "" ]} in
  parse_group_attributes (λ s, s) two_delimiter_settings meta = [].
Proof.
  intros meta. apply parse_group_attributes_empty_values.
  intros attr Hin. simpl in Hin.
  apply elem_of_cons in Hin as [->|Hin]; [reflexivity|].
  apply elem_of_cons in Hin as [->|Hin]; [reflexivity|].
  by apply elem_of_nil in Hin.
Defined.

Lemma first_match_no_prefix must_advance alts s :
  (∀ d, d ∈ alts → String.prefix d s = false) →
  first_match must_advance alts s = None.
Proof.
  induction alts as [|a alts IH]; intros Hno; [done|].
  cbn [first_match]. rewrite (Hno a) by left. cbn [andb].
  apply IH. intros d Hd. apply Hno. by right.
Qed.

Lemma re_split_from_no_match alts s :
  (∀ d before rest, d ∈ alts → s = before +:+ rest →
     String.prefix d rest = false) →
  re_split_from alts 0 s = [s].
Proof.
  induction s as [|c s IH]; intros Hnone.
  - cbn [re_split_from]. rewrite first_match_no_prefix; [done|].
    intros d Hd. by apply (Hnone d "" "").
  - cbn [re_split_from]. rewrite first_match_no_prefix.
    + rewrite IH; [done|]. intros d before rest Hd ->.
      by apply (Hnone d (String c before) rest).
    + intros d Hd. by apply (Hnone d "" (String c s)).
Qed.

Lemma concat_filter_singletons {A B : Type} (p : B → bool) (f : A → B)
    (l : list A) :
  concat (map (λ x, List.filter p [f x]) l) = List.filter p (map f l).
Proof.
  induction l as [|x l IH]; [done|].
  cbn [map concat List.filter]. rewrite <- IH. by destruct (p (f x)).
Qed.

(** X11.  With a non-empty list of literal delimiters, a group header whose
    value contains none of them is one group: when this is so for all
    configured group headers, the groups are the non-empty header values,
    in configuration order. *)
Theorem parse_group_attributes_whole_values
    (unquote : string → string) (settings : Settings)
    (meta : gmap string string) :
  GROUP_DELIMITERS settings ≠ [] →
  Forall (λ d, literal_pattern d = true) (GROUP_DELIMITERS settings) →
  (∀ attr d, attr ∈ GROUP_ATTRIBUTES settings →
     d ∈ GROUP_DELIMITERS settings →
     ¬ occurs_in d (group_header_value unquote settings meta attr)) →
  parse_group_attributes unquote settings meta
  = List.filter truthy
      (map (group_header_value unquote settings meta)
         (GROUP_ATTRIBUTES settings)).
Proof.
  intros Hne Hlit Hfree. rewrite parse_group_attributes_values.
  rewrite (concat_map_ext_in _
             (λ attr, List.filter truthy
                        [group_header_value unquote settings meta attr])).
  - apply concat_filter_singletons.
  - intros attr Hin. unfold re_split. rewrite alternatives_join by done.
    rewrite re_split_from_no_match; [done|].
    intros d before rest Hd Heq.
    destruct (String.prefix d rest) eqn:Hp; [|done].
    apply prefix_spec in Hp as [after ->].
    destruct (Hfree attr d Hin Hd). by exists before, after.
Qed.

Lemma parse_group_attributes_whole_values_witness :
  let meta : gmap string string :=
    {[ "HTTP_GROUPS" := "staff"; "HTTP_ROLES" := "" ]} in
  parse_group_attributes (λ s, s) two_delimiter_settings meta = ["staff"].
Proof.
  intros meta.
  rewrite (parse_group_attributes_whole_values (λ s, s)
             two_delimiter_settings meta);
    [reflexivity | discriminate | by repeat constructor |].
  intros attr d Hattr Hd (before & after & Heq).
  assert (attr = "HTTP_GROUPS" ∨ attr = "HTTP_ROLES") as Hattr'
    by set_solver.
  assert (d = ";" ∨ d = ",") as Hd' by set_solver.
  assert (∀ c : ascii, (c = ";" ∨ c = ",")%char →
          ∀ b a, "staff" ≠ b +:+ String c a) as Hstaff.
  { intros c Hc b a.
    do 6 (destruct b as [|? b]; [intros [=]; subst; destruct Hc; done|]).
    intros [=]. }
  destruct Hattr' as [-> | ->], Hd' as [-> | ->];
    unfold group_header_value in Heq; simpl in Heq.
  - by eapply (Hstaff ";"%char); [left|].
  - by eapply (Hstaff ","%char); [right|].
  - by destruct before.
  - by destruct before.
Defined.

(** *** Delimiters that are not separators *)

Lemma alternatives_bars_only pattern :
  bars_only pattern = true →
  alternatives pattern ≠ [] ∧ Forall (λ a, a = "") (alternatives pattern).
Proof.
  induction pattern as [|c p IH]; simpl.
  - intros _. split; [done|by repeat constructor].
  - intros [Hc Hp]%andb_true_iff. rewrite Hc.
    destruct (IH Hp) as [_ Hall]. split; [done|by constructor].
Qed.

Lemma bars_only_app a b :
  bars_only a = true → bars_only b = true → bars_only (a +:+ b) = true.
Proof.
  induction a as [|c a IH]; [done|]. simpl.
  intros [Hc Ha]%andb_true_iff Hb.
  change (bars_only (String c (a +:+ b)) = true). simpl.
  by rewrite Hc, IH.
Qed.

Lemma bars_only_join delimiters :
  Forall (λ d, bars_only d = true) delimiters →
  bars_only (String.concat "|" delimiters) = true.
Proof.
  induction 1 as [|d ds Hd Hds IH]; [done|].
  destruct ds as [|d' ds]; [done|].
  change (String.concat "|" (d :: d' :: ds))
    with (d +:+ String "|" (String.concat "|" (d' :: ds))).
  apply bars_only_app; [done|]. simpl. exact IH.
Qed.

Lemma first_match_all_empty alts s :
  alts ≠ [] → Forall (λ a, a = "") alts →
  first_match false alts s = Some 0 ∧ first_match true alts s = None.
Proof.
  intros Hne Hall. split.
  - destruct Hall as [|a alts -> _]; [done|]. by destruct s.
  - clear Hne. induction Hall as [|a alts -> _ IH]; [done|].
    cbn [first_match truthy negb orb]. by rewrite andb_false_r.
Qed.

Lemma re_split_from_all_empty alts s :
  alts ≠ [] → Forall (λ a, a = "") alts →
  ∃ rest, re_split_from alts 0 s = "" :: rest
          ∧ List.filter truthy rest = chars s.
Proof.
  intros Hne Hall. induction s as [|c s (rest & IH & Hrest)].
  - cbn [re_split_from].
    destruct (first_match_all_empty alts "" Hne Hall) as [-> ->].
    by exists [""].
  - cbn [re_split_from].
    destruct (first_match_all_empty alts (String c s) Hne Hall) as [-> ->].
    rewrite IH. exists (String c "" :: rest). split; [done|].
    simpl. by rewrite Hrest.
Qed.

(** X12.  The delimiters are joined with [|] without escaping, so a
    delimiter made of bars only (the empty delimiter and ["|"] included)
    is no separator: when all delimiters are such, or none is configured,
    every header value is cut into its single characters, bars included. *)
Theorem parse_group_attributes_bars_cut_characters
    (unquote : string → string) (settings : Settings)
    (meta : gmap string string) :
  Forall (λ d, bars_only d = true) (GROUP_DELIMITERS settings) →
  parse_group_attributes unquote settings meta
  = concat (map (λ attr, chars (group_header_value unquote settings meta attr))
              (GROUP_ATTRIBUTES settings)).
Proof.
  intros Hbars. rewrite parse_group_attributes_values.
  apply concat_map_ext_in. intros attr _. unfold re_split.
  destruct (alternatives_bars_only _ (bars_only_join _ Hbars)) as [Hne Hall].
  destruct (re_split_from_all_empty _
              (group_header_value unquote settings meta attr) Hne Hall)
    as (rest & -> & Hrest).
  exact Hrest.
Qed.

Lemma parse_group_attributes_bars_cut_characters_witness :
  let meta : gmap string string := {[ "HTTP_GROUPS" := "ab|c" ]} in
  parse_group_attributes (λ s, s) bar_delimiter_settings meta
  = ["a"; "b"; "|"; "c"].
Proof.
  intros meta.
  rewrite (parse_group_attributes_bars_cut_characters (λ s, s)
             bar_delimiter_settings meta);
    [reflexivity | by repeat constructor].
Defined.

(** *** Single-character delimiters *)

Lemma first_match_single_chars must_advance (D : list ascii) c s :
  first_match must_advance ((λ d, String d "") <$> D) (String c s)
  = if bool_decide (c ∈ D) then Some 1 else None.
Proof.
  induction D as [|d D IH]; [done|].
  cbn [fmap list_fmap first_match String.prefix truthy].
  rewrite orb_true_r, andb_true_r.
  destruct (Ascii.ascii_dec d c) as [->|Hne].
  - rewrite bool_decide_eq_true_2 by left. by destruct s.
  - change (list_fmap _ _ (λ d, String d "") D)
      with ((λ d, String d "") <$> D).
    rewrite IH. case_bool_decide as Hin.
    + by rewrite bool_decide_eq_true_2 by (by right).
    + rewrite bool_decide_eq_false_2; [done|].
      intros [->|?]%elem_of_cons; done.
Qed.

Lemma first_match_single_chars_end must_advance (D : list ascii) :
  first_match must_advance ((λ d, String d "") <$> D) "" = None.
Proof. induction D as [|d D IH]; [done|]. exact IH. Qed.

Lemma string_concat_cons (x : string) (l : list string) :
  String.concat "" (x :: l) = x +:+ String.concat "" l.
Proof.
  destruct l as [|y l]; [|done]. simpl.
  induction x as [|c x IH]; [done|].
  change (String c x = String c (x +:+ "")). by rewrite <- IH.
Qed.

Lemma string_concat_app (l1 l2 : list string) :
  String.concat "" (l1 ++ l2)%list
  = String.concat "" l1 +:+ String.concat "" l2.
Proof.
  induction l1 as [|x l1 IH]; [done|].
  change ((x :: l1) ++ l2)%list with (x :: (l1 ++ l2))%list.
  by rewrite !string_concat_cons, IH, string_app_assoc.
Qed.

Lemma string_concat_filter_truthy (l : list string) :
  String.concat "" (List.filter truthy l) = String.concat "" l.
Proof.
  induction l as [|x l IH]; [done|]. cbn [List.filter].
  destruct x as [|c x]; cbn [truthy].
  - by rewrite IH, string_concat_cons.
  - by rewrite !string_concat_cons, IH.
Qed.

Lemma re_split_from_single_chars (D : list ascii) s :
  String.concat "" (re_split_from ((λ d, String d "") <$> D) 0 s)
  = remove_chars D s.
Proof.
  induction s as [|c s IH].
  - cbn [re_split_from]. by rewrite first_match_single_chars_end.
  - cbn [re_split_from remove_chars]. rewrite first_match_single_chars.
    case_bool_decide.
    + by rewrite string_concat_cons, IH.
    + destruct (re_split_from_head ((λ d, String d "") <$> D) s)
        as (seg & rest & Heq & _).
      rewrite Heq in IH |- *. cbn [push].
      rewrite string_concat_cons in IH |- *.
      change (String c seg +:+ String.concat "" rest)
        with (String c (seg +:+ String.concat "" rest)).
      by rewrite IH.
Qed.

(** X13.  With single-character delimiters (not special to [re]) the
    parsing loses nothing but the delimiters: the groups, read one after
    the other, are the header values without their delimiter characters,
    in configuration order. *)
Theorem parse_group_attributes_drops_delimiters_only
    (unquote : string → string) (settings : Settings)
    (meta : gmap string string) (D : list ascii) :
  D ≠ [] →
  Forall (λ c, regex_special c = false) D →
  GROUP_DELIMITERS settings = (λ d, String d "") <$> D →
  String.concat "" (parse_group_attributes unquote settings meta)
  = String.concat ""
      (map (λ attr,
              remove_chars D (group_header_value unquote settings meta attr))
         (GROUP_ATTRIBUTES settings)).
Proof.
  intros Hne Hplain Hds. rewrite parse_group_attributes_values.
  assert (alternatives (String.concat "|" (GROUP_DELIMITERS settings))
          = (λ d, String d "") <$> D) as Halts.
  { rewrite Hds. apply alternatives_join.
    - apply Forall_fmap. eapply Forall_impl; [exact Hplain|].
      intros c Hc. simpl. by rewrite Hc.
    - by destruct D. }
  induction (GROUP_ATTRIBUTES settings) as [|attr attrs IH]; [done|].
  cbn [map concat]. rewrite string_concat_app, string_concat_cons, IH.
  f_equal. rewrite string_concat_filter_truthy. unfold re_split.
  rewrite Halts. apply re_split_from_single_chars.
Qed.

Lemma parse_group_attributes_drops_delimiters_only_witness :
  let meta : gmap string string :=
    {[ "HTTP_GROUPS" := "ab;c,,d"; "HTTP_ROLES" := ";e" ]} in
  parse_group_attributes (λ s, s) two_delimiter_settings meta
    = ["ab"; "c"; "d"; "e"]
  ∧ String.concat ""
      (parse_group_attributes (λ s, s) two_delimiter_settings meta)
    = "abcde".
Proof.
  intros meta. split; [reflexivity|].
  rewrite (parse_group_attributes_drops_delimiters_only (λ s, s)
             two_delimiter_settings meta [";"; ","]%char);
    [reflexivity | discriminate | by repeat constructor | reflexivity].
Defined.

(** ** More on group reconciliation *)

Lemma elem_of_membership_synced (groups : list string) user db n g :
  (n, g) ∈ membership (synced groups user db) ↔
  (n ≠ pk user ∧ (n, g) ∈ membership db) ∨ (n = pk user ∧ g ∈ groups).
Proof.
  simpl. rewrite elem_of_union, elem_of_filter, elem_of_map. simpl.
  setoid_rewrite elem_of_list_to_set. naive_solver.
Qed.

(** X14.  Reconciliation keeps the membership rows consistent with the
    group table: if every row names an existing group before, so it does
    afterwards (a group is created before the user is added to it). *)
Theorem update_user_groups_referential_integrity
    (unquote : string → string) (settings : Settings)
    (meta : gmap string string) (groups : list string)
    (user : User) (db : GroupDB) :
  referential_integrity db →
  referential_integrity (sync_groups groups user db)
  ∧ referential_integrity (update_user_groups unquote settings meta user db).
Proof.
  intros Hdb.
  assert (∀ l, referential_integrity (sync_groups l user db)) as Hall.
  { intros l n g. rewrite sync_groups_synced, elem_of_membership_synced.
    simpl. rewrite elem_of_union, elem_of_list_to_set.
    intros [[_ Hin]|[_ Hin]]; [left; by apply (Hdb n)|by right]. }
  split; [apply Hall|]. unfold update_user_groups. apply Hall.
Qed.

Lemma update_user_groups_referential_integrity_witness :
  referential_integrity groups_A_C
  ∧ referential_integrity (sync_groups ["B"] alice groups_A_C).
Proof.
  assert (referential_integrity groups_A_C) as Hdb.
  { intros n g. unfold groups_A_C. simpl.
    rewrite !elem_of_union, !elem_of_singleton. naive_solver. }
  split; [exact Hdb|].
  exact (proj1 (update_user_groups_referential_integrity (λ s, s)
                  scenario_settings ∅ ["B"] alice groups_A_C Hdb)).
Defined.

(** X15.  Reconciliation changes nothing exactly when the tables are
    already in sync with the list: the user's groups are the listed names
    and every listed name is a group. *)
Theorem sync_groups_fixed_point
    (groups : list string) (user : User) (db : GroupDB) :
  sync_groups groups user db = db ↔
  groups_of user db = list_to_set groups
  ∧ list_to_set groups ⊆ group_table db.
Proof.
  rewrite sync_groups_synced. split.
  - intros Heq. split.
    + rewrite <- Heq at 1. apply groups_of_synced.
    + rewrite <- Heq. simpl. set_solver.
  - intros [Hgroups Hsub]. apply GroupDB_eq.
    + simpl. set_solver.
    + apply set_eq. intros [n g]. rewrite elem_of_membership_synced.
      assert (g ∈ groups ↔ (pk user, g) ∈ membership db) as Hg.
      { rewrite <- elem_of_groups_of, Hgroups. by rewrite elem_of_list_to_set. }
      destruct (decide (n = pk user)) as [->|Hne]; naive_solver.
Qed.

Lemma sync_groups_fixed_point_witness :
  sync_groups ["C"; "A"] alice groups_A_C = groups_A_C.
Proof.
  apply sync_groups_fixed_point. split; [vm_compute; reflexivity|].
  intros g. unfold groups_A_C. simpl. set_solver.
Defined.

(** X16.  When group headers are configured but none of them carries a
    value (absent, or empty once decoded), reconciliation removes the user
    from every group, and creates none. *)
Theorem update_user_groups_without_values
    (unquote : string → string) (settings : Settings)
    (meta : gmap string string) (user : User) (db : GroupDB) :
  (∀ attr, attr ∈ GROUP_ATTRIBUTES settings →
     group_header_value unquote settings meta attr = "") →
  groups_of user (update_user_groups unquote settings meta user db) = ∅
  ∧ group_table (update_user_groups unquote settings meta user db)
    = group_table db.
Proof.
  intros Hempty.
  assert (parse_group_attributes unquote settings meta = []) as Hnil.
  { rewrite parse_group_attributes_values.
    rewrite (concat_map_ext_in _ (λ _, [])).
    - apply concat_map_nil.
    - intros attr Hin. rewrite (Hempty attr Hin).
      apply re_split_empty_value. }
  unfold update_user_groups. rewrite Hnil, sync_groups_synced.
  split; [apply groups_of_synced|]. simpl. set_solver.
Qed.

Lemma update_user_groups_without_values_witness :
  let meta : gmap string string := {[ "REMOTE_USER" := "alice" ]} in
  groups_of alice groups_A_C = {[ "A"; "C" ]}
  ∧ groups_of alice
      (update_user_groups (λ s, s) scenario_settings meta alice groups_A_C)
    = ∅.
Proof.
  intros meta. split; [vm_compute; reflexivity|].
  apply (update_user_groups_without_values (λ s, s) scenario_settings meta
           alice groups_A_C).
  intros attr Hin. simpl in Hin.
  apply elem_of_cons in Hin as [->|Hin]; [reflexivity|].
  by apply elem_of_nil in Hin.
Defined.

(** X17.  Reconciliations of two different users commute: done in either
    order they lead to the same group tables. *)
Theorem sync_groups_commute
    (groups1 groups2 : list string) (user1 user2 : User) (db : GroupDB) :
  pk user1 ≠ pk user2 →
  sync_groups groups1 user1 (sync_groups groups2 user2 db)
  = sync_groups groups2 user2 (sync_groups groups1 user1 db).
Proof.
  intros Hne. rewrite !sync_groups_synced. apply GroupDB_eq.
  - simpl. set_solver.
  - apply set_eq. intros [n g]. rewrite !elem_of_membership_synced.
    naive_solver.
Qed.

Lemma sync_groups_commute_witness :
  sync_groups ["A"; "B"] alice (sync_groups ["D"] bob groups_A_C)
  = sync_groups ["D"] bob (sync_groups ["A"; "B"] alice groups_A_C).
Proof. apply sync_groups_commute. discriminate. Defined.

(** X18.  An earlier reconciliation of the same user leaves no trace in
    the membership rows: after a later one the rows are those the later one
    gives on its own; what remains of the earlier one are the groups it
    created, which are never deleted. *)
Theorem sync_groups_last_wins
    (groups1 groups2 : list string) (user : User) (db : GroupDB) :
  membership (sync_groups groups2 user (sync_groups groups1 user db))
  = membership (sync_groups groups2 user db)
  ∧ group_table (sync_groups groups2 user (sync_groups groups1 user db))
    = group_table (sync_groups groups2 user db) ∪ list_to_set groups1.
Proof.
  rewrite !sync_groups_synced. split.
  - apply set_eq. intros [n g]. rewrite !elem_of_membership_synced.
    naive_solver.
  - simpl. set_solver.
Qed.

(** ** Decoding switched off *)

Lemma parse_attributes_unquote_off unquote1 unquote2 settings meta :
  UNQUOTE_ATTRIBUTES settings = false →
  parse_attributes unquote1 settings meta
  = parse_attributes unquote2 settings meta.
Proof.
  intros Hoff. unfold parse_attributes. apply foldl_ext_all.
  intros [attrs err] [h a]. unfold parse_step, maybe_unquote.
  by rewrite Hoff.
Qed.

Lemma parse_group_attributes_unquote_off unquote1 unquote2 settings meta :
  UNQUOTE_ATTRIBUTES settings = false →
  parse_group_attributes unquote1 settings meta
  = parse_group_attributes unquote2 settings meta.
Proof.
  intros Hoff. unfold parse_group_attributes. apply foldl_ext_all.
  intros groups attr. unfold parse_group_step, maybe_unquote.
  by rewrite Hoff.
Qed.

(** X19.  With [UNQUOTE_ATTRIBUTES] off nothing is ever percent-decoded:
    attribute parsing, group parsing and the whole of [process_request]
    give the same result whatever the decoding function is. *)
Theorem unquote_off_never_decodes
    (unquote1 unquote2 : string → string)
    (clean_username : string → Request → string)
    (authenticate : Request → string → gmap string string → option User)
    (login : Request → User → Request)
    (settings : Settings) (w : World) :
  UNQUOTE_ATTRIBUTES settings = false →
  parse_attributes unquote1 settings (META (request w))
    = parse_attributes unquote2 settings (META (request w))
  ∧ parse_group_attributes unquote1 settings (META (request w))
    = parse_group_attributes unquote2 settings (META (request w))
  ∧ process_request unquote1 clean_username authenticate login settings w
    = process_request unquote2 clean_username authenticate login settings w.
Proof.
  intros Hoff.
  split; [by apply parse_attributes_unquote_off|].
  split; [by apply parse_group_attributes_unquote_off|].
  assert (∀ v, maybe_unquote unquote1 settings v
               = maybe_unquote unquote2 settings v) as Hdec
    by (intros v; unfold maybe_unquote; by rewrite Hoff).
  pose proof (process_request_outcome unquote2 clean_username authenticate
                login settings w) as Hout.
  destruct Hout as [Hu|c Hu Hraw|c raw Hu Hraw He|c raw Hu Hraw Hne Hfast
                   |c raw m Hu Hraw Hne Hfast Hparse
                   |c raw m Hu Hraw Hne Hfast Hparse Hauth
                   |c raw m u Hu Hraw Hne Hfast Hparse Hauth];
    rewrite <- ?Hdec in *;
    rewrite <- ?(parse_attributes_unquote_off unquote1 unquote2) in * by done.
  - by apply process_request_improperly_configured.
  - by eapply process_request_no_header_run.
  - by eapply process_request_empty_header_run.
  - by eapply process_request_already_logged_in.
  - rewrite (process_request_establish unquote1 clean_username authenticate
               login settings w c raw Hu Hraw Hne Hfast).
    by apply establish_error.
  - rewrite (process_request_establish unquote1 clean_username authenticate
               login settings w c raw Hu Hraw Hne Hfast).
    by apply establish_no_match.
  - rewrite (process_request_establish unquote1 clean_username authenticate
               login settings w c raw Hu Hraw Hne Hfast).
    rewrite (establish_match unquote1 authenticate login settings _ w m u
               Hparse Hauth).
    unfold logged_in_world, update_user_groups. simpl.
    by rewrite (parse_group_attributes_unquote_off unquote1 unquote2).
Qed.

Lemma unquote_off_never_decodes_witness :
  UNQUOTE_ATTRIBUTES scenario_settings = false
  ∧ process_request (λ s, s) keep_username match_alice plain_login
      scenario_settings (world_of request_with_groups)
    = process_request (λ _, "") keep_username match_alice plain_login
        scenario_settings (world_of request_with_groups).
Proof.
  split; [reflexivity|].
  exact (proj2 (proj2 (unquote_off_never_decodes (λ s, s) (λ _, "")
                         keep_username match_alice plain_login
                         scenario_settings (world_of request_with_groups)
                         eq_refl))).
Defined.
